(** * Raw HID over libusb-1.0: the discovery pipeline of [hid_LINUX.c]

    A shallow embedding of [src/extras/rawhid/hid_LINUX.c]: the report
    descriptor item decoder [hid_parse_item], the linked list of opened
    devices ([add_hid], [get_hid], [free_all_hid], [hid_close]) and the
    public entry points [rawhid_open], [rawhid_recv] and [rawhid_close].

    Pointers into the descriptor buffer are integer addresses; the list of
    [hid_t] nodes hanging off [first_hid] is a Rocq list; the USB stack is a
    black box whose answers are part of the input and whose calls are
    recorded, in order, in the world. *)

From Stdlib Require Import ZArith List Lia Bool.
From Stdlib Require Import Strings.Byte.
From Stdlib Require Import Sorting.Sorted Sorting.Permutation.
Import ListNotations.
Local Open Scope Z_scope.

(** ** Bytes and logged memory reads *)

(** The value of a [uint8_t] after integer promotion. *)
Definition u8 (b : byte) : Z := Z.of_N (Byte.to_N b).

(** Conversion of an integer result to [uint32_t]. *)
Definition u32 (z : Z) : Z := z mod 2 ^ 32.

(** Memory as seen through a [uint8_t *]. *)
Definition memory := Z -> byte.

(** A computation that reads memory and records every address it reads,
    most recent first. *)
Definition rd (A : Type) : Type := memory -> list Z -> A * list Z.

Definition ret {A} (a : A) : rd A := fun _ log => (a, log).

Definition bind {A B} (c : rd A) (k : A -> rd B) : rd B :=
  fun m log => let (a, log') := c m log in k a m log'.

(** [p[0]], [p[1]], ...: the only primitive that touches memory. *)
Definition load (addr : Z) : rd Z := fun m log => (u8 (m addr), addr :: log).

Notation "x <- c ;; k" := (bind c (fun x => k))
  (at level 61, c at next level, right associativity).

(** Result and addresses read, starting from an empty log. *)
Definition run {A} (c : rd A) (m : memory) : A * list Z := c m [].

(** ** [hid_parse_item] *)

(** [const int table[4] = {0, 1, 2, 4}] *)
Definition table (i : Z) : Z :=
  match i with
  | 0 => 0
  | 1 => 1
  | 2 => 2
  | _ => 4
  end.

(** What a call leaves behind: the returned [int], and the contents of
    [*val] and [*data] afterwards. *)
Record parsed := mk_parsed { p_ret : Z; p_val : Z; p_data : Z }.

(** [static int hid_parse_item(uint32_t *val, uint8_t **data, const uint8_t *end)].
    [val] and [data] are the contents of [*val] and [*data] on entry. *)
Definition hid_parse_item (val data end_ : Z) : rd parsed :=
  let p := data in
  if p >=? end_ then ret (mk_parsed (-1) val data) else
  p0 <- load p ;;
  if p0 =? 0xFE then
    (* long item: [p + 5 >= end || p + p[1] >= end], left to right *)
    if p + 5 >=? end_ then ret (mk_parsed (-1) val data) else
    p1 <- load (p + 1) ;;
    if p + p1 >=? end_ then ret (mk_parsed (-1) val data) else
    tag <- load (p + 2) ;;
    p1' <- load (p + 1) ;;
    let len := p1' + 5 in
    ret (mk_parsed tag 0 (data + (len + 1)))
  else
    (* short item *)
    t0 <- load p ;;
    let tag := Z.land t0 0xFC in
    s0 <- load p ;;
    let len := table (Z.land s0 0x03) in
    if p + len + 1 >=? end_ then ret (mk_parsed (-1) val data) else
    c0 <- load p ;;
    match Z.land c0 0x03 with
    | 3 =>
        b1 <- load (p + 1) ;;
        b2 <- load (p + 2) ;;
        b3 <- load (p + 3) ;;
        b4 <- load (p + 4) ;;
        let v := Z.lor (Z.lor (Z.lor b1 (Z.shiftl b2 8)) (Z.shiftl b3 16))
                       (Z.shiftl b4 24) in
        ret (mk_parsed tag (u32 v) (data + (len + 1)))
    | 2 =>
        b1 <- load (p + 1) ;;
        b2 <- load (p + 2) ;;
        ret (mk_parsed tag (u32 (Z.lor b1 (Z.shiftl b2 8))) (data + (len + 1)))
    | 1 =>
        b1 <- load (p + 1) ;;
        ret (mk_parsed tag (u32 b1) (data + (len + 1)))
    | 0 => ret (mk_parsed tag 0 (data + (len + 1)))
    | _ => ret (mk_parsed tag val (data + (len + 1)))
    end.

(** A buffer laid out from address 0; bytes outside it read as zero. *)
Definition mem_of (buf : list byte) : memory :=
  fun a => if a <? 0 then x00 else nth (Z.to_nat a) buf x00.

Definition bytes_of (l : list Z) : list byte :=
  map (fun z => match Byte.of_N (Z.to_N z) with Some b => b | None => x00 end) l.

(** ** The USB stack as a black box *)

(** Values from [libusb-1.0/libusb.h]. *)
Definition LIBUSB_CLASS_HID : Z := 3.
Definition LIBUSB_ENDPOINT_IN : Z := 0x80.
Definition LIBUSB_ERROR_TIMEOUT : Z := -7.

(** A [libusb_device_handle *] returned by [libusb_open]; the stack hands
    out a new one at every successful open. *)
Definition libusb_device_handle := nat.

(** The calls made into the stack that acquire, use or give up a
    connection, with what they were given and what they answered. *)
Inductive usb_call : Type :=
| Call_open (dev : nat) (h : option libusb_device_handle)
| Call_detach_kernel_driver (h : libusb_device_handle) (iface : Z) (r : Z)
| Call_claim_interface (h : libusb_device_handle) (iface : Z) (r : Z)
| Call_get_report (h : libusb_device_handle) (iface : Z)
| Call_release_interface (h : libusb_device_handle) (iface : Z)
| Call_close (h : libusb_device_handle)
| Call_interrupt_transfer (h : option libusb_device_handle)
                          (endpoint length timeout : Z).

Record libusb_endpoint_descriptor := mk_endpoint { bEndpointAddress : Z }.

Record libusb_interface_descriptor := mk_interface_descriptor {
  bInterfaceClass : Z;
  bInterfaceSubClass : Z;
  bInterfaceProtocol : Z;
  endpoint : list libusb_endpoint_descriptor   (* [bNumEndpoints] of them *)
}.

(** What the stack (and the allocator) answer while one alternate setting
    is being tried: the return values of [libusb_open],
    [libusb_kernel_driver_active], [libusb_detach_kernel_driver] and
    [libusb_claim_interface], the report descriptor delivered by the
    GET_DESCRIPTOR control transfer ([None] for a negative return), and
    whether [malloc] succeeds. *)
Record usb_answers := mk_answers {
  open_r : Z;
  kernel_driver_active_r : Z;
  detach_kernel_driver_r : Z;
  claim_interface_r : Z;
  report_descriptor : option (list byte);
  malloc_ok : bool
}.

Record altsetting := mk_altsetting {
  iface_desc : libusb_interface_descriptor;
  answers : usb_answers
}.

(** [struct libusb_interface]: [num_altsetting] alternate settings. *)
Definition libusb_interface := list altsetting.

Record libusb_device_descriptor := mk_device_descriptor {
  idVendor : Z;
  idProduct : Z
}.

(** One entry of the device list: the device descriptor ([None] when
    [libusb_get_device_descriptor] fails) and configuration 0 ([None] when
    [libusb_get_config_descriptor] fails) with its [bNumInterfaces]
    interfaces. *)
Record libusb_device := mk_device {
  device_descriptor : option libusb_device_descriptor;
  config_descriptor : option (list libusb_interface)
}.

(** ** The list of opened devices *)

(** [struct hid_struct]; [prev] and [next] are the position in the list. *)
Record hid_t := mk_hid {
  handle : option libusb_device_handle;   (* [None] is [NULL] *)
  open : Z;
  iface : Z;
  ep_in : Z;
  ep_out : Z
}.

(** The globals [first_hid]/[last_hid] (the list they delimit), and the
    stack: the next handle it will hand out and the calls made so far,
    oldest first. *)
Record world := mk_world {
  first_hid : list hid_t;
  next_handle : libusb_device_handle;
  calls : list usb_call
}.

Definition log (w : world) (cs : list usb_call) : world :=
  mk_world (first_hid w) (next_handle w) (calls w ++ cs).

(** [static void hid_close(hid_t *hid)]: the node afterwards and the calls made. *)
Definition hid_close (hid : hid_t) : hid_t * list usb_call :=
  match handle hid with
  | None => (hid, [])
  | Some h =>
      (mk_hid None (open hid) (iface hid) (ep_in hid) (ep_out hid),
       [Call_release_interface h (iface hid); Call_close h])
  end.

(** [static void add_hid(hid_t *h)] *)
Definition add_hid (h : hid_t) (w : world) : world :=
  match first_hid w with
  | [] => mk_world [h] (next_handle w) (calls w)
  | _ :: _ => mk_world (first_hid w ++ [h]) (next_handle w) (calls w)
  end.

(** [static hid_t * get_hid(int num)]: the node reached, as its position
    and contents; [None] is [NULL]. *)
Fixpoint get_hid_from (p : list hid_t) (pos : nat) (num : Z) : option (nat * hid_t) :=
  match p with
  | [] => None
  | hid :: next =>
      if num >? 0 then get_hid_from next (S pos) (num - 1) else Some (pos, hid)
  end.

Definition get_hid (w : world) (num : Z) : option (nat * hid_t) :=
  get_hid_from (first_hid w) 0%nat num.

(** Writing through a node pointer. *)
Fixpoint store (l : list hid_t) (pos : nat) (hid : hid_t) : list hid_t :=
  match l, pos with
  | [], _ => []
  | _ :: next, O => hid :: next
  | x :: next, S pos' => x :: store next pos' hid
  end.

(** The first loop of [free_all_hid]: [hid_close] on every node. *)
Fixpoint close_each (p : list hid_t) : list hid_t * list usb_call :=
  match p with
  | [] => ([], [])
  | hid :: next =>
      let (hid', c) := hid_close hid in
      let (next', cs) := close_each next in
      (hid' :: next', c ++ cs)
  end.

(** [static void free_all_hid(void)] *)
Definition free_all_hid (w : world) : world :=
  let (_, cs) := close_each (first_hid w) in
  mk_world [] (next_handle w) (calls w ++ cs).

(** ** Transport and close *)

(** The conversions an [int] argument undergoes when it is passed for a
    parameter of type [unsigned char], [uint16_t] or [unsigned int]. *)
Definition to_uchar (z : Z) : Z := z mod 2 ^ 8.
Definition to_uint16 (z : Z) : Z := z mod 2 ^ 16.
Definition to_uint (z : Z) : Z := z mod 2 ^ 32.

(** [int rawhid_recv(int num, void *buf, int len, int timeout)].
    [answer] is what [libusb_interrupt_transfer] returns and what it leaves
    in [transferred]. The call is recorded with the arguments as the stack
    receives them: the endpoint as [unsigned char], the length as [int],
    the timeout as [unsigned int]. *)
Definition rawhid_recv (num len timeout : Z) (answer : Z * Z) (w : world)
  : Z * world :=
  match get_hid w num with
  | None => (-1, w)
  | Some (_, hid) =>
      if open hid =? 0 then (-1, w) else
      let (r, transferred) := answer in
      let w' := log w [Call_interrupt_transfer (handle hid)
                         (to_uchar (Z.lor (ep_in hid) LIBUSB_ENDPOINT_IN))
                         len (to_uint timeout)] in
      if r =? 0 then (transferred, w')
      else if r =? LIBUSB_ERROR_TIMEOUT then (0, w')
      else (-1, w')
  end.

(** [void rawhid_close(int num)] *)
Definition rawhid_close (num : Z) (w : world) : world :=
  match get_hid w num with
  | None => w
  | Some (pos, hid) =>
      if open hid =? 0 then w else
      let (hid', cs) := hid_close hid in
      mk_world (store (first_hid w) pos hid') (next_handle w) (calls w ++ cs)
  end.

(** ** [rawhid_open] *)

(** The locals of [rawhid_open] that live across loop iterations. *)
Record locals := mk_locals {
  count : Z;
  parsed_usage_page : Z;
  parsed_usage : Z
}.

(** The endpoint loop, from the values of [ep_in] and [ep_out] so far. *)
Fixpoint endpoint_loop (eps : list libusb_endpoint_descriptor) (ep_in ep_out : Z)
  : Z * Z :=
  match eps with
  | [] => (ep_in, ep_out)
  | ep :: rest =>
      if negb (Z.land (bEndpointAddress ep) LIBUSB_ENDPOINT_IN =? 0) then
        endpoint_loop rest
          (if ep_in =? 0 then Z.land (bEndpointAddress ep) 0x7F else ep_in) ep_out
      else
        endpoint_loop rest ep_in
          (if ep_out =? 0 then bEndpointAddress ep else ep_out)
  end.

(** The [while (p < buf + len)] loop over the fetched descriptor; [buf] is
    at address 0. Every completed iteration moves [p] forward, so
    [Z.to_nat (len - p)] steps are all the loop can take. *)
Fixpoint parse_loop (fuel : nat) (m : memory) (len p val pup pu : Z) : Z * Z :=
  match fuel with
  | O => (pup, pu)
  | S fuel' =>
      if p <? len then
        let r := fst (run (hid_parse_item val p len) m) in
        let tag := p_ret r in
        if tag <? 0 then (pup, pu) else
        let pup' := if tag =? 4 then p_val r else pup in
        let pu' := if tag =? 8 then p_val r else pu in
        if negb (pup' =? 0) && negb (pu' =? 0) then (pup', pu')
        else parse_loop fuel' m len (p_data r) (p_val r) pup' pu'
      else (pup, pu)
  end.

(** [uint8_t buf[1024]]: the transfer stores at most [sizeof(buf)] bytes. *)
Definition fetched (d : list byte) : list byte := firstn 1024 d.

Definition parse_descriptor (d : list byte) (pup pu : Z) : Z * Z :=
  let len := Z.of_nat (length (fetched d)) in
  parse_loop (Z.to_nat len) (mem_of (fetched d)) len 0 0 pup pu.

(** The body of the loop over alternate settings, for alternate setting
    [a] of interface [j] of device [i]. Every [continue] returns the state
    reached so far. *)
Definition altsetting_body (usage_page usage : Z) (i : nat) (j : Z)
    (a : altsetting) (l : locals) (w : world) : locals * world :=
  let d := iface_desc a in
  let s := answers a in
  if negb (bInterfaceClass d =? LIBUSB_CLASS_HID) then (l, w) else
  if negb (bInterfaceSubClass d =? 0) then (l, w) else
  if negb (bInterfaceProtocol d =? 0) then (l, w) else
  let (ep_in, ep_out) := endpoint_loop (endpoint d) 0 0 in
  if ep_in =? 0 then (l, w) else
  if open_r s <? 0 then (l, log w [Call_open i None]) else
  let h := next_handle w in
  let w := mk_world (first_hid w) (S h) (calls w ++ [Call_open i (Some h)]) in
  let detach_failed :=
    negb (kernel_driver_active_r s =? 0) && (detach_kernel_driver_r s <? 0) in
  let w := if negb (kernel_driver_active_r s =? 0)
           then log w [Call_detach_kernel_driver h j (detach_kernel_driver_r s)]
           else w in
  if detach_failed then (l, log w [Call_close h]) else
  let w := log w [Call_claim_interface h j (claim_interface_r s)] in
  if claim_interface_r s <? 0 then (l, log w [Call_close h]) else
  let w := log w [Call_get_report h j] in
  match report_descriptor s with
  | None => (l, log w [Call_release_interface h j; Call_close h])
  | Some bytes =>
      let (pup, pu) :=
        parse_descriptor bytes (parsed_usage_page l) (parsed_usage l) in
      let l := mk_locals (count l) pup pu in
      if (pup =? 0) || (pu =? 0)
         || ((usage_page >? 0) && negb (pup =? usage_page))
         || ((usage >? 0) && negb (pu =? usage))
      then (l, log w [Call_release_interface h j; Call_close h]) else
      if negb (malloc_ok s)
      then (l, log w [Call_release_interface h j; Call_close h]) else
      let hid := mk_hid (Some h) 1 j ep_in ep_out in
      (mk_locals (count l + 1) pup pu, add_hid hid w)
  end.

(** [for (k = 0; k < iface->num_altsetting; k++)] *)
Fixpoint altsetting_loop (usage_page usage : Z) (i : nat) (j : Z)
    (alts : list altsetting) (l : locals) (w : world) : locals * world :=
  match alts with
  | [] => (l, w)
  | a :: rest =>
      let (l', w') := altsetting_body usage_page usage i j a l w in
      altsetting_loop usage_page usage i j rest l' w'
  end.

(** [for (j = 0; j < conf_desc->bNumInterfaces && count < max; j++)],
    from interface [j] on. *)
Fixpoint interface_loop (max usage_page usage : Z) (i : nat) (j : Z)
    (ifaces : list libusb_interface) (l : locals) (w : world) : locals * world :=
  match ifaces with
  | [] => (l, w)
  | alts :: rest =>
      if count l <? max then
        let (l', w') := altsetting_loop usage_page usage i j alts l w in
        interface_loop max usage_page usage i (j + 1) rest l' w'
      else (l, w)
  end.

(** The body of the loop over devices. *)
Definition device_body (max vid pid usage_page usage : Z) (i : nat)
    (dev : libusb_device) (l : locals) (w : world) : locals * world :=
  match device_descriptor dev with
  | None => (l, w)
  | Some desc =>
      if (vid >? 0) && negb (idVendor desc =? vid) then (l, w) else
      if (pid >? 0) && negb (idProduct desc =? pid) then (l, w) else
      match config_descriptor dev with
      | None => (l, w)
      | Some ifaces => interface_loop max usage_page usage i 0 ifaces l w
      end
  end.

(** [for (i = 0; devs[i] != NULL && count < max; i++)], from device [i] on. *)
Fixpoint device_loop (max vid pid usage_page usage : Z) (i : nat)
    (devs : list libusb_device) (l : locals) (w : world) : locals * world :=
  match devs with
  | [] => (l, w)
  | dev :: rest =>
      if count l <? max then
        let (l', w') := device_body max vid pid usage_page usage i dev l w in
        device_loop max vid pid usage_page usage (S i) rest l' w'
      else (l, w)
  end.

(** [int rawhid_open(int max, int vid, int pid, int usage_page, int usage)].
    [devs] is the answer of [libusb_get_device_list]: [None] for a negative
    count, otherwise the NULL-terminated list. *)
Definition rawhid_open (max vid pid usage_page usage : Z)
    (devs : option (list libusb_device)) (w : world) : Z * world :=
  let w := match first_hid w with [] => w | _ :: _ => free_all_hid w end in
  if max <? 1 then (0, w) else
  match devs with
  | None => (0, w)
  | Some devs =>
      let (l, w') :=
        device_loop max vid pid usage_page usage 0%nat devs (mk_locals 0 0 0) w in
      (count l, w')
  end.

(** ** [rawhid_send] and [rawhid_scan] *)

(** More values from [libusb-1.0/libusb.h]. *)
Definition LIBUSB_REQUEST_TYPE_CLASS : Z := 0x20.
Definition LIBUSB_RECIPIENT_INTERFACE : Z := 0x01.
Definition LIBUSB_ENDPOINT_OUT : Z := 0x00.

(** The one transfer [rawhid_send] asks of the stack. *)
Inductive send_call : Type :=
| Send_interrupt (h : option libusb_device_handle)
                 (endpoint length timeout : Z)
| Send_control (h : option libusb_device_handle)
               (bmRequestType bRequest wValue wIndex length timeout : Z).

(** [int rawhid_send(int num, void *buf, int len, int timeout)]: the value
    returned and the transfer made, if any. [interrupt_answer] is what
    [libusb_interrupt_transfer] returns and leaves in [transferred],
    [control_answer] what [libusb_control_transfer] returns. The list of
    opened devices is only read. The transfer carries the arguments as
    the stack receives them: endpoint and request type as
    [unsigned char], [wIndex] and [wLength] as [uint16_t], the length of an
    interrupt transfer as [int], the timeout as [unsigned int]. *)
Definition rawhid_send (num len timeout : Z) (interrupt_answer : Z * Z)
    (control_answer : Z) (w : world) : Z * option send_call :=
  match get_hid w num with
  | None => (-1, None)
  | Some (_, hid) =>
      if open hid =? 0 then (-1, None) else
      if negb (ep_out hid =? 0) then
        let (r, transferred) := interrupt_answer in
        (if r >=? 0 then transferred else -1,
         Some (Send_interrupt (handle hid) (to_uchar (ep_out hid)) len
                 (to_uint timeout)))
      else
        let r := control_answer in
        let transferred := r in
        (if r >=? 0 then transferred else -1,
         Some (Send_control (handle hid)
                 (to_uchar (Z.lor (Z.lor LIBUSB_REQUEST_TYPE_CLASS
                                         LIBUSB_RECIPIENT_INTERFACE)
                                  LIBUSB_ENDPOINT_OUT))
                 0x09 0x200 (to_uint16 (iface hid)) (to_uint16 len)
                 (to_uint timeout)))
  end.

(** The device descriptor as [rawhid_scan] reads it: the ids and
    [bNumConfigurations]. *)
Record scanned_descriptor := mk_scanned {
  scanned_ids : libusb_device_descriptor;
  bNumConfigurations : Z
}.

(** The [while ((dev = devs[i++]) != NULL)] loop of [rawhid_scan], from the
    value of [count] so far; an entry is [None] when
    [libusb_get_device_descriptor] fails for that device. *)
Fixpoint scan_loop (vid pid : Z) (devs : list (option scanned_descriptor))
    (count : Z) : Z :=
  match devs with
  | [] => count
  | None :: rest => scan_loop vid pid rest count
  | Some desc :: rest =>
      if (vid >? 0) && negb (idVendor (scanned_ids desc) =? vid)
      then scan_loop vid pid rest count else
      if (pid >? 0) && negb (idProduct (scanned_ids desc) =? pid)
      then scan_loop vid pid rest count else
      if bNumConfigurations desc >? 0
      then scan_loop vid pid rest (count + 1)
      else scan_loop vid pid rest count
  end.

(** [int rawhid_scan(int vid, int pid)]; [devs] is [None] when
    [libusb_get_device_list] returns a negative count. *)
Definition rawhid_scan (vid pid : Z)
    (devs : option (list (option scanned_descriptor))) : Z :=
  match devs with
  | None => 0
  | Some devs => scan_loop vid pid devs 0
  end.

(** ** Notions used to state the properties *)

(** The value of a byte string read as a little-endian number. *)
Definition le_value (bs : list Z) : Z :=
  fold_right (fun b acc => b + 256 * acc) 0 bs.

(** The [n] bytes that follow the byte at [p]. *)
Definition payload (m : memory) (p n : Z) : list Z :=
  map (fun k => u8 (m (p + 1 + Z.of_nat k))) (seq 0 (Z.to_nat n)).

(** The bounds policy: the cursor is at or past [end_], or the bytes the
    item at [p] needs do not stay strictly inside [end_]. *)
Definition out_of_bounds (m : memory) (p end_ : Z) : Prop :=
  p >= end_ \/
  (u8 (m p) = 0xFE /\ (p + 5 >= end_ \/ p + u8 (m (p + 1)) >= end_)) \/
  (u8 (m p) <> 0xFE /\ p + table (Z.land (u8 (m p)) 0x03) + 1 >= end_).

(** The (tag, value) items decoded one after the other from [p] up to the
    first failure. *)
Fixpoint decode_items (fuel : nat) (m : memory) (len p : Z) : list (Z * Z) :=
  match fuel with
  | O => []
  | S fuel' =>
      let r := fst (run (hid_parse_item 0 p len) m) in
      if p_ret r <? 0 then []
      else (p_ret r, p_val r) :: decode_items fuel' m len (p_data r)
  end.

Definition items_of (d : list byte) : list (Z * Z) :=
  let len := Z.of_nat (length (fetched d)) in
  decode_items (Z.to_nat len) (mem_of (fetched d)) len 0.

(** The value of the first item carrying [tag], if there is one. *)
Fixpoint first_item (tag : Z) (items : list (Z * Z)) : option Z :=
  match items with
  | [] => None
  | (t, v) :: rest => if t =? tag then Some v else first_item tag rest
  end.

(** Following the items in order: each tag-4 item replaces the usage page,
    each tag-8 item replaces the usage, and the walk stops as soon as both
    are non-zero. *)
Fixpoint latest_usage (items : list (Z * Z)) (pup pu : Z) : Z * Z :=
  match items with
  | [] => (pup, pu)
  | (t, v) :: rest =>
      let pup' := if t =? 4 then v else pup in
      let pu' := if t =? 8 then v else pu in
      if negb (pup' =? 0) && negb (pu' =? 0) then (pup', pu')
      else latest_usage rest pup' pu'
  end.

(** The handle a call into the stack is about. *)
Definition call_handle (c : usb_call) : option libusb_device_handle :=
  match c with
  | Call_open _ h => h
  | Call_detach_kernel_driver h _ _ => Some h
  | Call_claim_interface h _ _ => Some h
  | Call_get_report h _ => Some h
  | Call_release_interface h _ => Some h
  | Call_close h => Some h
  | Call_interrupt_transfer h _ _ _ => h
  end.

(** What tearing an open entry down asks of the stack. *)
Definition teardown (hid : hid_t) : list usb_call :=
  match handle hid with
  | Some h => [Call_release_interface h (iface hid); Call_close h]
  | None => []
  end.

(** Calls that prepare the connection [h] for use. *)
Definition setup_call (h : libusb_device_handle) (c : usb_call) : Prop :=
  match c with
  | Call_detach_kernel_driver h' _ _ => h' = h
  | Call_claim_interface h' _ _ => h' = h
  | Call_get_report h' _ => h' = h
  | _ => False
  end.

Definition release_call (h : libusb_device_handle) (c : usb_call) : Prop :=
  exists j, c = Call_release_interface h j.

(** What trying one alternate setting of interface [j] of device [i] can
    do: nothing; a failed open; an open followed by calls on the new
    connection and its close, with no entry added; or an open followed by
    set-up calls, among them a successful claim of [j], and one entry added
    for the connection. *)
Inductive tried (i : nat) (j : Z) (l : locals) (w : world)
  : locals -> world -> Prop :=
| tried_skipped : tried i j l w l w
| tried_not_opened : tried i j l w l (log w [Call_open i None])
| tried_given_up (l' : locals) (mid : list usb_call) :
    count l' = count l ->
    Forall (fun c => setup_call (next_handle w) c \/
                     release_call (next_handle w) c) mid ->
    tried i j l w l'
      (mk_world (first_hid w) (S (next_handle w))
         (calls w ++ Call_open i (Some (next_handle w)) :: mid
                  ++ [Call_close (next_handle w)]))
| tried_committed (l' : locals) (mid : list usb_call) (e_in e_out r : Z) :
    count l' = count l + 1 ->
    Forall (setup_call (next_handle w)) mid ->
    In (Call_claim_interface (next_handle w) j r) mid ->
    0 <= r -> e_in <> 0 ->
    tried i j l w l'
      (mk_world
         (first_hid w ++ [mk_hid (Some (next_handle w)) 1 j e_in e_out])
         (S (next_handle w))
         (calls w ++ Call_open i (Some (next_handle w)) :: mid)).

(** The entry [e] is backed by the calls [pass]: it is open, has an IN
    endpoint, and owns a connection that [pass] opened and successfully
    claimed for the entry's interface, and on which [pass] made no other
    call than the open and set-up calls (so no release and no close). *)
Definition backed (pass : list usb_call) (e : hid_t) : Prop :=
  exists h,
    handle e = Some h /\ open e = 1 /\ ep_in e <> 0 /\
    (exists d, In (Call_open d (Some h)) pass) /\
    (exists r, 0 <= r /\ In (Call_claim_interface h (iface e) r) pass) /\
    (forall c, In c pass -> call_handle c = Some h ->
       (exists d, c = Call_open d (Some h)) \/ setup_call h c).

(** The state of a discovery pass that started with the stack about to
    hand out [b0], has made the calls [pass] and counted [n] devices. *)
Record pass_inv (b0 : libusb_device_handle) (pass : list usb_call) (n : Z)
    (w : world) : Prop := mk_pass_inv {
  inv_count : Z.of_nat (length (first_hid w)) = n;
  inv_base : (b0 <= next_handle w)%nat;
  inv_calls : forall c h, In c pass -> call_handle c = Some h ->
                (b0 <= h < next_handle w)%nat;
  inv_backed : Forall (backed pass) (first_hid w);
  inv_nodup : NoDup (map handle (first_hid w));
  inv_opened : forall d h, In (Call_open d (Some h)) pass ->
                 In (Call_close h) pass \/ In (Some h) (map handle (first_hid w))
}.

(** The locals and world [lw] are a state of the pass that started after
    the calls [pre] with the stack about to hand out [b0]. *)
Definition pass_state (b0 : libusb_device_handle) (pre : list usb_call)
    (lw : locals * world) : Prop :=
  exists pass,
    calls (snd lw) = pre ++ pass /\
    pass_inv b0 pass (count (fst lw)) (snd lw).

(** No interface of configuration 0 of [dev] has more than one alternate
    setting. *)
Definition single_altsettings (dev : libusb_device) : Prop :=
  match config_descriptor dev with
  | Some ifaces => Forall (fun alts : libusb_interface => (length alts <= 1)%nat) ifaces
  | None => True
  end.

(** An endpoint whose address has the direction bit set. *)
Definition is_in (ep : libusb_endpoint_descriptor) : bool :=
  negb (Z.land (bEndpointAddress ep) LIBUSB_ENDPOINT_IN =? 0).

(** The number (low seven bits) of the first IN endpoint whose number is
    not 0, or 0 when there is none. *)
Definition first_in (eps : list libusb_endpoint_descriptor) : Z :=
  match find (fun ep => is_in ep && negb (Z.land (bEndpointAddress ep) 0x7F =? 0))
             eps with
  | Some ep => Z.land (bEndpointAddress ep) 0x7F
  | None => 0
  end.

(** The address of the first endpoint that is not IN and whose address is
    not 0, or 0 when there is none. *)
Definition first_out (eps : list libusb_endpoint_descriptor) : Z :=
  match find (fun ep => negb (is_in ep) && negb (bEndpointAddress ep =? 0)) eps with
  | Some ep => bEndpointAddress ep
  | None => 0
  end.

(** The alternate setting is one [rawhid_open] goes on to open: HID class,
    subclass 0, protocol 0, and an IN endpoint with a non-zero number. *)
Definition is_candidate (a : altsetting) : bool :=
  (bInterfaceClass (iface_desc a) =? LIBUSB_CLASS_HID)
  && (bInterfaceSubClass (iface_desc a) =? 0)
  && (bInterfaceProtocol (iface_desc a) =? 0)
  && negb (first_in (endpoint (iface_desc a)) =? 0).

(** The device passes the vendor and product filters, its descriptors can
    be read, and one of its alternate settings is a candidate. *)
Definition is_examined (vid pid : Z) (dev : libusb_device) : bool :=
  match device_descriptor dev, config_descriptor dev with
  | Some desc, Some ifaces =>
      negb ((vid >? 0) && negb (idVendor desc =? vid))
      && negb ((pid >? 0) && negb (idProduct desc =? pid))
      && existsb (existsb is_candidate) ifaces
  | _, _ => false
  end.

(** The device is one [rawhid_scan] counts. *)
Definition is_counted (vid pid : Z) (dev : option scanned_descriptor) : bool :=
  match dev with
  | None => false
  | Some desc =>
      ((vid <=? 0) || (idVendor (scanned_ids desc) =? vid))
      && ((pid <=? 0) || (idProduct (scanned_ids desc) =? pid))
      && (0 <? bNumConfigurations desc)
  end.

(** The connections the entries of a list hold, in list order. *)
Definition held_handles (l : list hid_t) : list libusb_device_handle :=
  flat_map (fun e => match handle e with Some h => [h] | None => [] end) l.

(** What the calls of a pass owe each other, in the order they are made:
    after every successful claim that no entry of [new] owns comes a
    release of the same interface on the same connection; before every
    release comes a successful claim of that interface on that
    connection, and after it the close of the connection; and no
    interrupt transfer is made. *)
Definition paired (delta : list usb_call) (new : list hid_t) : Prop :=
  (forall pre post h j r,
     delta = pre ++ Call_claim_interface h j r :: post -> 0 <= r ->
     In (Some h) (map handle new) \/ In (Call_release_interface h j) post) /\
  (forall pre post h j,
     delta = pre ++ Call_release_interface h j :: post ->
     (exists r, 0 <= r /\ In (Call_claim_interface h j r) pre) /\
     In (Call_close h) post) /\
  (forall h e n t, ~ In (Call_interrupt_transfer h e n t) delta).

(** The calls made before the claim: the open and, possibly, the detach. *)
Definition before_claim (c : usb_call) : Prop :=
  match c with
  | Call_open _ _ => True
  | Call_detach_kernel_driver _ _ _ => True
  | _ => False
  end.

(** An entry as [rawhid_open] makes them: open, on a connection, with an
    IN endpoint number between 1 and 127 and an OUT endpoint address that
    has the direction bit clear. *)
Definition fresh_entry (e : hid_t) : Prop :=
  (exists h, handle e = Some h) /\ open e = 1 /\
  1 <= ep_in e <= 127 /\ Z.land (ep_out e) LIBUSB_ENDPOINT_IN = 0.

(** The largest number of alternate settings an interface of the devices
    has is at most [n]. *)
Definition altsettings_at_most (n : nat) (dev : libusb_device) : Prop :=
  match config_descriptor dev with
  | Some ifaces => Forall (fun alts : libusb_interface => (length alts <= n)%nat) ifaces
  | None => True
  end.

(** What a pass has done between the state [(l0, w0)] and the state [lw]:
    it made the calls [delta] and appended the entries [new], one per
    device counted; the calls are [paired] with the entries, the entries
    are as [fresh_entry] describes, and their connections were handed out
    in list order, after [w0]. *)
Definition pass_effect (l0 : locals) (w0 : world) (lw : locals * world) : Prop :=
  exists delta new,
    calls (snd lw) = calls w0 ++ delta /\
    first_hid (snd lw) = first_hid w0 ++ new /\
    count (fst lw) = count l0 + Z.of_nat (length new) /\
    paired delta new /\
    Forall fresh_entry new /\
    StronglySorted Nat.lt (held_handles new) /\
    Forall (fun h => (next_handle w0 <= h < next_handle (snd lw))%nat)
           (held_handles new) /\
    (next_handle w0 <= next_handle (snd lw))%nat.



(** ** Sample inputs *)

Definition empty_world : world := mk_world [] 0%nat [].

(** Usage page 0xFFAB, usage 0x0200, then a collection. *)
Definition teensy_report : list byte :=
  bytes_of [0x06; 0xAB; 0xFF; 0x0A; 0x00; 0x02; 0xA1; 0x01; 0xC0].

(** Two usage pages (1, then 5) ahead of the first usage (2). *)
Definition two_pages_report : list byte :=
  bytes_of [0x05; 0x01; 0x05; 0x05; 0x09; 0x02; 0xC0].

Definition all_ok (d : list byte) : usb_answers :=
  mk_answers 0 0 0 0 (Some d) true.

(** A raw HID alternate setting: class 3, subclass 0, protocol 0, an IN
    endpoint 0x83 and an OUT endpoint 0x04. *)
Definition rawhid_alt (d : list byte) : altsetting :=
  mk_altsetting
    (mk_interface_descriptor 3 0 0 [mk_endpoint 0x83; mk_endpoint 0x04])
    (all_ok d).

Definition one_device (ifaces : list libusb_interface) : libusb_device :=
  mk_device (Some (mk_device_descriptor 0x16C0 0x0480)) (Some ifaces).

(** One device whose only interface has two raw HID alternate settings. *)
Definition two_altsettings : list libusb_device :=
  [one_device [[rawhid_alt teensy_report; rawhid_alt teensy_report]]].

(** One device with one raw HID interface. *)
Definition teensy : list libusb_device :=
  [one_device [[rawhid_alt teensy_report]]].

(** Two devices with one raw HID interface each; the report descriptor of
    the second is empty. *)
Definition teensy_then_blank : list libusb_device :=
  [one_device [[rawhid_alt teensy_report]]; one_device [[rawhid_alt []]]].

(** The world after [rawhid_open(1, -1, -1, -1, -1)] has found [teensy]. *)
Definition teensy_opened : world :=
  snd (rawhid_open 1 (-1) (-1) (-1) (-1) (Some teensy) empty_world).

(** One device with one raw HID interface whose report descriptor is
    [two_pages_report]. *)
Definition two_pages_device : list libusb_device :=
  [one_device [[rawhid_alt two_pages_report]]].

(** A long item with an empty payload and tag 7, followed by padding. *)
Definition long_item_mem : memory :=
  mem_of (bytes_of [0xFE; 0; 7; 0; 0; 0; 0; 0]).

(** * Properties *)

(** ** The item decoder *)

Example parse_short2 :
  run (hid_parse_item 0 0 9) (mem_of teensy_report)
  = (mk_parsed 4 0xFFAB 3, [2; 1; 0; 0; 0; 0]).
Proof. vm_compute. reflexivity. Qed.

Lemma u8_range (b : byte) : 0 <= u8 b < 256.
Proof.
  unfold u8. pose proof (Byte.to_N_bounded b) as H.
  split; [apply N2Z.is_nonneg | lia].
Qed.

Lemma land3_cases (z : Z) :
  0 <= z -> Z.land z 0x03 = 0 \/ Z.land z 0x03 = 1 \/ Z.land z 0x03 = 2 \/ Z.land z 0x03 = 3.
Proof.
  intros Hz.
  assert (E : Z.land z 0x03 = z mod 4).
  { change 0x03 with (Z.ones 2). rewrite Z.land_ones by lia. reflexivity. }
  rewrite E. pose proof (Z.mod_pos_bound z 4). lia.
Qed.

Lemma lor_shiftl_add (a b n : Z) :
  0 <= n -> 0 <= a < 2 ^ n -> Z.lor a (Z.shiftl b n) = a + b * 2 ^ n.
Proof.
  intros Hn Ha.
  assert (Hdisj : Z.land a (Z.shiftl b n) = 0).
  { apply Z.bits_inj'. intros k Hk. rewrite Z.land_spec, Z.bits_0.
    destruct (Z.ltb_spec k n) as [Hlt | Hge].
    - rewrite Z.shiftl_spec_low by lia. apply andb_false_r.
    - replace (Z.testbit a k) with false; [reflexivity|].
      symmetry. destruct (Z.eq_dec a 0) as [-> | Hnz]; [apply Z.bits_0|].
      apply Z.bits_above_log2; [lia|].
      apply Z.lt_le_trans with n; [|lia].
      apply Z.log2_lt_pow2; lia. }
  rewrite <- Z.lxor_lor by exact Hdisj.
  rewrite <- Z.add_nocarry_lxor by exact Hdisj.
  rewrite Z.shiftl_mul_pow2 by lia. reflexivity.
Qed.

Ltac parse_step := unfold run, hid_parse_item, bind, load, ret; cbn [fst snd].

Lemma geb_false (a b : Z) : a < b -> (a >=? b) = false.
Proof. intros. rewrite Z.geb_leb. apply Z.leb_gt. lia. Qed.

Lemma geb_true (a b : Z) : a >= b -> (a >=? b) = true.
Proof. intros. rewrite Z.geb_leb. apply Z.leb_le. lia. Qed.

Lemma eqb_false (a b : Z) : a <> b -> (a =? b) = false.
Proof. intros. apply Z.eqb_neq. assumption. Qed.

(** C8: a short item (first byte [b] other than 0xFE) that passes the
    bounds check decodes to tag [b & 0xFC] and to the little-endian value
    of its [table[b & 3]] payload bytes, and moves the cursor forward by
    [1 + table[b & 3]]. *)
Theorem short_item_decodes (m : memory) (val p end_ : Z) :
  u8 (m p) <> 0xFE -> p < end_ ->
  p + table (Z.land (u8 (m p)) 0x03) + 1 < end_ ->
  fst (run (hid_parse_item val p end_) m)
  = mk_parsed (Z.land (u8 (m p)) 0xFC)
              (le_value (payload m p (table (Z.land (u8 (m p)) 0x03))))
              (p + (1 + table (Z.land (u8 (m p)) 0x03))).
Proof.
  intros Hne Hp Hb. parse_step.
  rewrite (geb_false p end_) by lia. rewrite (eqb_false _ _ Hne).
  rewrite (geb_false _ end_) by lia.
  pose proof (u8_range (m (p + 1))) as R1.
  pose proof (u8_range (m (p + 2))) as R2.
  pose proof (u8_range (m (p + 3))) as R3.
  pose proof (u8_range (m (p + 4))) as R4.
  assert (P0 : forall k, p + 1 + Z.of_nat k = p + (1 + Z.of_nat k)) by (intros; lia).
  destruct (land3_cases (u8 (m p))) as [E | [E | [E | E]]];
    [pose proof (u8_range (m p)); lia | | | |]; rewrite E;
    cbv beta iota zeta delta [table payload le_value];
    [ change (Z.to_nat 0) with 0%nat | change (Z.to_nat 1) with 1%nat
    | change (Z.to_nat 2) with 2%nat | change (Z.to_nat 4) with 4%nat ];
    cbn [seq map fold_right]; rewrite ?P0; cbn [Z.of_nat Pos.of_succ_nat Pos.succ Z.add Pos.add];
    cbn [fst]; f_equal; unfold u32; change (2 ^ 32) with 4294967296.
  - rewrite Z.mod_small by lia. lia.
  - rewrite (lor_shiftl_add _ _ 8) by (change (2 ^ 8) with 256; lia).
    change (2 ^ 8) with 256. rewrite Z.mod_small by lia. lia.
  - rewrite (lor_shiftl_add _ _ 8) by (change (2 ^ 8) with 256; lia).
    change (2 ^ 8) with 256.
    rewrite (lor_shiftl_add _ _ 16) by (change (2 ^ 16) with 65536; lia).
    change (2 ^ 16) with 65536.
    rewrite (lor_shiftl_add _ _ 24) by (change (2 ^ 24) with 16777216; lia).
    change (2 ^ 24) with 16777216. rewrite Z.mod_small by lia. lia.
Qed.

Lemma short_item_decodes_witness :
  fst (run (hid_parse_item 0 0 9) (mem_of teensy_report))
  = mk_parsed 4 0xFFAB 3.
Proof.
  refine (short_item_decodes (mem_of teensy_report) 0 0 9 _ _ _).
  - vm_compute. discriminate.
  - reflexivity.
  - reflexivity.
Defined.

Ltac bound_case :=
  cbv beta; rewrite ?Z.geb_leb;
  match goal with |- context [?a <=? ?b] => destruct (Z.leb_spec a b) end;
  cbv beta iota; cbn [fst snd].

Lemma reads_inside (m : memory) (val p end_ : Z) :
  Forall (fun a => p <= a < end_) (snd (run (hid_parse_item val p end_) m)).
Proof.
  parse_step. bound_case; [constructor|].
  destruct (Z.eqb_spec (u8 (m p)) 254).
  - bound_case; [repeat constructor; lia|].
    bound_case; repeat constructor; lia.
  - destruct (land3_cases (u8 (m p))) as [E | [E | [E | E]]];
      [pose proof (u8_range (m p)); lia | | | |]; rewrite E;
      cbv beta iota zeta delta [table]; bound_case;
      rewrite ?E; cbv beta iota; cbn [snd];
      repeat (first [apply Forall_nil | apply Forall_cons]); lia.
Qed.

(** X2: a call does not depend on what memory holds outside [[p, end_)]:
    the bytes of [buf] past the fetched length play no part in the scan. *)
Lemma hid_parse_item_ext (m m' : memory) (val p end_ : Z) :
  (forall a, p <= a < end_ -> m a = m' a) ->
  run (hid_parse_item val p end_) m = run (hid_parse_item val p end_) m'.
Proof.
  intros H.
  assert (Sync : forall a, p <= a < end_ -> u8 (m' a) = u8 (m a))
    by (intros a Ha; now rewrite (H a Ha)).
  parse_step. bound_case; [reflexivity|].
  rewrite (Sync p) by lia.
  destruct (Z.eqb_spec (u8 (m p)) 254).
  - bound_case; [reflexivity|].
    rewrite !(Sync (p + 1)) by lia. bound_case; [reflexivity|].
    rewrite ?(Sync (p + 1)), ?(Sync (p + 2)) by lia. reflexivity.
  - cbv beta. rewrite !(Sync p) by lia.
    destruct (land3_cases (u8 (m p))) as [E | [E | [E | E]]];
      [pose proof (u8_range (m p)); lia | | | |]; rewrite E;
      cbv beta iota zeta delta [table]; bound_case; try reflexivity;
      rewrite ?(Sync p) by lia; rewrite ?E; cbv beta iota;
      rewrite ?(Sync p) by lia;
      try rewrite !(Sync (p + 1)) by lia; try rewrite !(Sync (p + 2)) by lia;
      try rewrite !(Sync (p + 3)) by lia; try rewrite !(Sync (p + 4)) by lia;
      reflexivity.
Qed.

(** C6: when the cursor is at or past [end_], or the item's bytes would not
    stay strictly inside [end_], [hid_parse_item] returns -1, leaves [*val]
    and [*data] alone, and has read no address at or beyond [end_]. *)
Theorem out_of_bounds_fails (m : memory) (val p end_ : Z) :
  out_of_bounds m p end_ ->
  fst (run (hid_parse_item val p end_) m) = mk_parsed (-1) val p /\
  Forall (fun a => a < end_) (snd (run (hid_parse_item val p end_) m)).
Proof.
  intros Hoob. split.
  - parse_step. bound_case; [reflexivity|].
    destruct Hoob as [H0 | [[Hl Hb] | [Hs Hb]]]; [lia | |].
    + rewrite Hl. cbn [Z.eqb Pos.eqb].
      bound_case; [reflexivity|]. bound_case; [reflexivity | lia].
    + rewrite (eqb_false _ _ Hs). bound_case; [reflexivity | lia].
  - eapply Forall_impl; [|apply reads_inside]. cbv beta. intros; lia.
Qed.

Lemma out_of_bounds_fails_witness :
  fst (run (hid_parse_item 5 8 9) (mem_of teensy_report)) = mk_parsed (-1) 5 8 /\
  Forall (fun a => a < 9) (snd (run (hid_parse_item 5 8 9) (mem_of teensy_report))).
Proof.
  refine (out_of_bounds_fails (mem_of teensy_report) 5 8 9 _).
  right. right. split.
  - vm_compute. discriminate.
  - vm_compute. discriminate.
Defined.

(** C3, as the code has it: a long item (first byte 0xFE) that passes the
    bounds check decodes to tag [byte[2]] and value 0, and moves the cursor
    forward by [6 + byte[1]]: [len = p[1] + 5], then [*data += len + 1]. *)
Theorem long_item_decodes (m : memory) (val p end_ : Z) :
  u8 (m p) = 0xFE -> p < end_ -> p + 5 < end_ -> p + u8 (m (p + 1)) < end_ ->
  fst (run (hid_parse_item val p end_) m)
  = mk_parsed (u8 (m (p + 2))) 0 (p + (6 + u8 (m (p + 1)))).
Proof.
  intros Hl Hp H5 H1. parse_step.
  rewrite (geb_false p end_) by lia. rewrite Hl. cbn [Z.eqb Pos.eqb].
  rewrite (geb_false (p + 5) end_) by lia.
  rewrite (geb_false (p + u8 (m (p + 1))) end_) by lia.
  cbn [fst]. f_equal. lia.
Qed.

Lemma long_item_decodes_witness :
  fst (run (hid_parse_item 0 0 8) long_item_mem) = mk_parsed 7 0 6.
Proof.
  refine (long_item_decodes long_item_mem 0 0 8 _ _ _ _); reflexivity.
Defined.

(** C3 as stated fails: a long item with an empty payload passes the bounds
    check, decodes to tag [byte[2]] and value 0, and moves the cursor by 6,
    not by [5 + byte[1]] = 5. *)
Lemma long_item_advance_is_not_5 :
  u8 (long_item_mem 0) = 0xFE /\ 0 + 5 < 8 /\ 0 + u8 (long_item_mem 1) < 8 /\
  p_ret (fst (run (hid_parse_item 0 0 8) long_item_mem)) = u8 (long_item_mem 2) /\
  p_val (fst (run (hid_parse_item 0 0 8) long_item_mem)) = 0 /\
  p_data (fst (run (hid_parse_item 0 0 8) long_item_mem)) = 6 /\
  p_data (fst (run (hid_parse_item 0 0 8) long_item_mem))
    <> 0 + (5 + u8 (long_item_mem 1)).
Proof. vm_compute. repeat split; congruence. Qed.

(** ** Scanning a report descriptor *)

(** A call either fails, leaving [*val] and [*data] as they were, or
    yields a non-negative tag and moves the cursor forward, whatever
    [*val] held before. *)
Lemma parse_outcome (m : memory) (p end_ : Z) :
  (forall val, fst (run (hid_parse_item val p end_) m) = mk_parsed (-1) val p) \/
  (exists tag v n, 0 <= tag /\ 1 <= n /\
     forall val, fst (run (hid_parse_item val p end_) m) = mk_parsed tag v (p + n)).
Proof.
  pose proof (u8_range (m p)) as R0.
  pose proof (u8_range (m (p + 1))) as R1.
  pose proof (u8_range (m (p + 2))) as R2.
  assert (T : 0 <= Z.land (u8 (m p)) 252) by (apply Z.land_nonneg; lia).
  parse_step. bound_case; [left; reflexivity|].
  destruct (Z.eqb_spec (u8 (m p)) 254).
  - bound_case; [left; reflexivity|]. bound_case; [left; reflexivity|].
    right. exists (u8 (m (p + 2))), 0, (u8 (m (p + 1)) + 5 + 1).
    repeat split; try lia.
  - destruct (land3_cases (u8 (m p))) as [E | [E | [E | E]]];
      [lia | | | |]; rewrite E;
      cbv beta iota zeta delta [table]; bound_case;
      rewrite ?E; cbv beta iota; cbn [fst];
      try (left; reflexivity); right; eexists _, _, _;
      (split; [exact T | split; [| intros; reflexivity]]); lia.
Qed.

(** The loop over the descriptor never needs more steps than there are
    bytes left: any two step budgets that cover them agree. *)
Lemma parse_loop_fuel (m : memory) (len : Z) (fuel1 : nat) :
  forall fuel2 p val pup pu,
    (Z.to_nat (len - p) <= fuel1)%nat -> (Z.to_nat (len - p) <= fuel2)%nat ->
    parse_loop fuel1 m len p val pup pu = parse_loop fuel2 m len p val pup pu.
Proof.
  induction fuel1 as [|fuel1 IH]; intros [|fuel2] p val pup pu H1 H2;
    cbn [parse_loop]; try reflexivity.
  - destruct (Z.ltb_spec p len); [lia | reflexivity].
  - destruct (Z.ltb_spec p len); [lia | reflexivity].
  - destruct (Z.ltb_spec p len); [|reflexivity].
    destruct (parse_outcome m p len) as [F | (tag & v & n & Ht & Hn & S)].
    + rewrite F. reflexivity.
    + rewrite S. cbn [p_ret p_val p_data].
      destruct (tag <? 0); [reflexivity|].
      destruct (negb _ && negb _); [reflexivity|].
      apply IH; lia.
Qed.

(** The same holds of the list of decoded items. *)
Lemma decode_items_fuel (m : memory) (len : Z) (fuel1 : nat) :
  forall fuel2 p,
    (Z.to_nat (len - p) <= fuel1)%nat -> (Z.to_nat (len - p) <= fuel2)%nat ->
    decode_items fuel1 m len p = decode_items fuel2 m len p.
Proof.
  assert (Past : forall p, len <= p ->
            p_ret (fst (run (hid_parse_item 0 p len) m)) = -1).
  { intros p Hp. parse_step. now rewrite (geb_true p len) by lia. }
  induction fuel1 as [|fuel1 IH]; intros [|fuel2] p H1 H2;
    cbn [decode_items]; try reflexivity.
  - rewrite Past by lia. reflexivity.
  - rewrite Past by lia. reflexivity.
  - destruct (parse_outcome m p len) as [F | (tag & v & n & Ht & Hn & S)].
    + rewrite F. reflexivity.
    + rewrite S. cbn [p_ret p_val p_data].
      destruct (tag <? 0); [reflexivity|]. f_equal.
      destruct (Z.le_gt_cases len p) as [Hge | Hlt].
      * pose proof (Past p Hge) as P. rewrite S in P. cbn in P. lia.
      * apply IH; lia.
Qed.

(** The loop computes [latest_usage] over the items decoded in sequence. *)
Lemma parse_loop_latest (m : memory) (len : Z) (fuel : nat) :
  forall p val pup pu,
    parse_loop fuel m len p val pup pu
    = latest_usage (decode_items fuel m len p) pup pu.
Proof.
  induction fuel as [|fuel IH]; intros p val pup pu; [reflexivity|].
  cbn [parse_loop decode_items].
  destruct (parse_outcome m p len) as [F | (tag & v & n & Ht & Hn & S)].
  - rewrite !F. cbn [p_ret Z.ltb Z.compare].
    destruct (p <? len); reflexivity.
  - rewrite !S. cbn [p_ret p_val p_data].
    destruct (Z.ltb_spec p len) as [Hlt | Hge].
    + destruct (tag <? 0); [reflexivity|]. cbn [latest_usage].
      destruct (negb _ && negb _); [reflexivity | apply IH].
    + exfalso. specialize (S 0). revert S. parse_step.
      rewrite (geb_true p len) by lia. cbn [fst]. intros S.
      injection S as S1 _ _. lia.
Qed.

Lemma parse_descriptor_latest (d : list byte) (pup pu : Z) :
  parse_descriptor d pup pu = latest_usage (items_of d) pup pu.
Proof. unfold parse_descriptor, items_of. apply parse_loop_latest. Qed.

(** ** One discovery pass *)

Lemma add_hid_world (h : hid_t) (w : world) :
  add_hid h w = mk_world (first_hid w ++ [h]) (next_handle w) (calls w).
Proof. unfold add_hid. destruct (first_hid w); reflexivity. Qed.

Lemma tried_given_up_eq (i : nat) (j : Z) (l l' : locals) (w w' : world)
    (mid : list usb_call) :
  count l' = count l ->
  Forall (fun c => setup_call (next_handle w) c \/
                   release_call (next_handle w) c) mid ->
  w' = mk_world (first_hid w) (S (next_handle w))
         (calls w ++ Call_open i (Some (next_handle w)) :: mid
                  ++ [Call_close (next_handle w)]) ->
  tried i j l w l' w'.
Proof. intros Hc Hm ->. now apply tried_given_up. Qed.

Lemma tried_committed_eq (i : nat) (j : Z) (l l' : locals) (w w' : world)
    (mid : list usb_call) (e_in e_out r : Z) :
  count l' = count l + 1 ->
  Forall (setup_call (next_handle w)) mid ->
  In (Call_claim_interface (next_handle w) j r) mid ->
  0 <= r -> e_in <> 0 ->
  w' = mk_world
         (first_hid w ++ [mk_hid (Some (next_handle w)) 1 j e_in e_out])
         (S (next_handle w))
         (calls w ++ Call_open i (Some (next_handle w)) :: mid) ->
  tried i j l w l' w'.
Proof. intros Hc Hm Hi Hr He ->. now apply tried_committed with (r := r). Qed.

Ltac world_norm :=
  unfold log; cbn [first_hid next_handle calls];
  rewrite <- ?app_assoc; cbn [app].

Ltac mid_ok :=
  repeat (apply Forall_cons || apply Forall_nil);
  first [ left; reflexivity | right; eexists; reflexivity | reflexivity ].

Ltac give_up_with ms :=
  apply (tried_given_up_eq _ _ _ _ _ _ ms);
  [ reflexivity | mid_ok | world_norm; reflexivity ].

Lemma altsetting_body_tried (usage_page usage : Z) (i : nat) (j : Z)
    (a : altsetting) (l : locals) (w : world) :
  tried i j l w (fst (altsetting_body usage_page usage i j a l w))
                (snd (altsetting_body usage_page usage i j a l w)).
Proof.
  unfold altsetting_body.
  destruct (negb (bInterfaceClass (iface_desc a) =? LIBUSB_CLASS_HID));
    [apply tried_skipped|].
  destruct (negb (bInterfaceSubClass (iface_desc a) =? 0)); [apply tried_skipped|].
  destruct (negb (bInterfaceProtocol (iface_desc a) =? 0)); [apply tried_skipped|].
  destruct (endpoint_loop (endpoint (iface_desc a)) 0 0) as [e_in e_out].
  destruct (Z.eqb_spec e_in 0) as [|Hin]; [apply tried_skipped|].
  destruct (open_r (answers a) <? 0); [apply tried_not_opened|].
  set (h := next_handle w).
  set (D := Call_detach_kernel_driver h j (detach_kernel_driver_r (answers a))).
  set (C := Call_claim_interface h j (claim_interface_r (answers a))).
  set (G := Call_get_report h j).
  set (R := Call_release_interface h j).
  destruct (negb (kernel_driver_active_r (answers a) =? 0)) eqn:Hk; cbn [andb].
  - destruct (detach_kernel_driver_r (answers a) <? 0); cbn [fst snd];
      [give_up_with [D]|].
    destruct (Z.ltb_spec (claim_interface_r (answers a)) 0); cbn [fst snd];
      [give_up_with [D; C]|].
    destruct (report_descriptor (answers a)) as [bytes|]; cbn [fst snd];
      [|give_up_with [D; C; G; R]].
    destruct (parse_descriptor bytes _ _) as [pup pu].
    destruct (_ || _); cbn [fst snd]; [give_up_with [D; C; G; R]|].
    destruct (negb (malloc_ok (answers a))); cbn [fst snd];
      [give_up_with [D; C; G; R]|].
    apply tried_committed_eq
      with (mid := [D; C; G]) (e_in := e_in) (e_out := e_out)
           (r := claim_interface_r (answers a));
      [ reflexivity | mid_ok | cbn; auto | lia | exact Hin
      | rewrite add_hid_world; world_norm; reflexivity ].
  - destruct (Z.ltb_spec (claim_interface_r (answers a)) 0); cbn [fst snd];
      [give_up_with [C]|].
    destruct (report_descriptor (answers a)) as [bytes|]; cbn [fst snd];
      [|give_up_with [C; G; R]].
    destruct (parse_descriptor bytes _ _) as [pup pu].
    destruct (_ || _); cbn [fst snd]; [give_up_with [C; G; R]|].
    destruct (negb (malloc_ok (answers a))); cbn [fst snd];
      [give_up_with [C; G; R]|].
    apply tried_committed_eq
      with (mid := [C; G]) (e_in := e_in) (e_out := e_out)
           (r := claim_interface_r (answers a));
      [ reflexivity | mid_ok | cbn; auto | lia | exact Hin
      | rewrite add_hid_world; world_norm; reflexivity ].
Qed.

Lemma setup_call_handle (h : libusb_device_handle) (c : usb_call) :
  setup_call h c -> call_handle c = Some h.
Proof. destruct c; cbn; try contradiction; congruence. Qed.

Lemma mid_call_handle (h : libusb_device_handle) (c : usb_call) :
  setup_call h c \/ release_call h c -> call_handle c = Some h.
Proof.
  intros [H | [j ->]]; [now apply setup_call_handle | reflexivity].
Qed.

Lemma backed_handle_bound (b0 : libusb_device_handle) (pass : list usb_call)
    (n : Z) (w : world) (e : hid_t) :
  pass_inv b0 pass n w -> In e (first_hid w) ->
  exists h, handle e = Some h /\ (b0 <= h < next_handle w)%nat.
Proof.
  intros I He.
  pose proof (proj1 (Forall_forall _ _) (inv_backed _ _ _ _ I) e He) as B.
  destruct B as (h & Hh & _ & _ & (d & Hd) & _).
  exists h. split; [exact Hh|]. eapply (inv_calls _ _ _ _ I); [exact Hd|reflexivity].
Qed.

(** Calls on a connection the stack had not handed out yet leave the
    backing of the existing entries alone. *)
Lemma backed_extend (pass new : list usb_call) (e : hid_t)
    (hn : libusb_device_handle) :
  (forall h, handle e = Some h -> h <> hn) ->
  Forall (fun c => call_handle c = None \/ call_handle c = Some hn) new ->
  backed pass e -> backed (pass ++ new) e.
Proof.
  intros Hne Hnew (h & Hh & Ho & Hi & (d & Hd) & (r & Hr & Hc) & Hq).
  exists h. repeat split; try assumption.
  - exists d. apply in_or_app. now left.
  - exists r. split; [assumption|]. apply in_or_app. now left.
  - intros c Hc' Hch. apply in_app_or in Hc'. destruct Hc' as [Hc' | Hc'].
    + now apply Hq.
    + exfalso. rewrite Forall_forall in Hnew.
      destruct (Hnew c Hc') as [E | E]; rewrite E in Hch; [discriminate|].
      injection Hch as <-. now apply (Hne hn).
Qed.

Lemma tried_preserves (b0 : libusb_device_handle) (pre pass : list usb_call)
    (i : nat) (j : Z) (l l' : locals) (w w' : world) :
  calls w = pre ++ pass -> pass_inv b0 pass (count l) w ->
  tried i j l w l' w' ->
  exists pass', calls w' = pre ++ pass' /\ pass_inv b0 pass' (count l') w'.
Proof.
  intros Hcalls I T.
  assert (Hold : forall e, In e (first_hid w) ->
            forall h, handle e = Some h -> h <> next_handle w).
  { intros e He h Hh. destruct (backed_handle_bound _ _ _ _ e I He) as (h' & Hh' & Hb).
    rewrite Hh in Hh'. injection Hh' as <-. lia. }
  destruct I as [Icount Ibase Icalls Ibacked Inodup Iopened].
  destruct T as [| | l' mid Hc Hmid | l' mid e_in e_out r Hc Hmid Hclaim Hr Hin].
  - exists pass. split; [assumption|]. now constructor.
  - exists (pass ++ [Call_open i None]). split.
    { cbn [log calls]. rewrite Hcalls. now rewrite app_assoc. }
    constructor; cbn [log first_hid next_handle]; try assumption.
    + intros c h Hc Hh. apply in_app_or in Hc. destruct Hc as [Hc | [<- | []]].
      * now apply Icalls with c.
      * discriminate.
    + rewrite Forall_forall in *. intros e He.
      apply backed_extend with (hn := next_handle w); [now apply Hold | | now apply Ibacked].
      repeat constructor.
    + intros d h Ho. apply in_app_or in Ho. destruct Ho as [Ho | [Ho | []]]; [|discriminate].
      destruct (Iopened d h Ho) as [Hcl | Hreg]; [left; apply in_or_app; now left | now right].
  - set (hn := next_handle w) in *.
    set (new := Call_open i (Some hn) :: mid ++ [Call_close hn]).
    assert (Hnew : Forall (fun c => call_handle c = Some hn) new).
    { constructor; [reflexivity|]. apply Forall_app. split.
      - eapply Forall_impl; [|exact Hmid]. intros c. apply mid_call_handle.
      - repeat constructor. }
    exists (pass ++ new). split.
    { cbn [calls]. rewrite Hcalls. now rewrite <- app_assoc. }
    rewrite Hc.
    constructor; cbn [first_hid next_handle]; try assumption; try lia.
    + intros c h Hin Hh. apply in_app_or in Hin. destruct Hin as [Hin | Hin].
      * specialize (Icalls c h Hin Hh). lia.
      * rewrite Forall_forall in Hnew. rewrite (Hnew c Hin) in Hh.
        injection Hh as <-. lia.
    + rewrite Forall_forall in *. intros e He.
      apply backed_extend with (hn := hn); [now apply Hold | | now apply Ibacked].
      apply Forall_forall. intros c Hin. right. now apply Hnew.
    + intros d h Ho. apply in_app_or in Ho. destruct Ho as [Ho | Ho].
      * destruct (Iopened d h Ho) as [Hcl | Hreg];
          [left; apply in_or_app; now left | now right].
      * left. apply in_or_app. right.
        assert (E : call_handle (Call_open d (Some h)) = Some hn)
          by (rewrite Forall_forall in Hnew; now apply Hnew).
        cbn in E. injection E as ->. unfold new.
        right. apply in_or_app. right. now left.
  - set (hn := next_handle w) in *.
    set (new := Call_open i (Some hn) :: mid).
    assert (Hnew : Forall (fun c => call_handle c = Some hn) new).
    { constructor; [reflexivity|].
      eapply Forall_impl; [|exact Hmid]. intros c. apply setup_call_handle. }
    exists (pass ++ new). split.
    { cbn [calls]. rewrite Hcalls. now rewrite <- app_assoc. }
    rewrite Hc.
    constructor; cbn [first_hid next_handle]; try lia.
    + rewrite length_app, Nat2Z.inj_add. cbn [length]. lia.
    + intros c h Hi Hh. apply in_app_or in Hi. destruct Hi as [Hi | Hi].
      * specialize (Icalls c h Hi Hh). lia.
      * rewrite Forall_forall in Hnew. rewrite (Hnew c Hi) in Hh.
        injection Hh as <-. lia.
    + apply Forall_app. split.
      * rewrite Forall_forall in *. intros e He.
        apply backed_extend with (hn := hn); [now apply Hold | | now apply Ibacked].
        apply Forall_forall. intros c Hi. right. now apply Hnew.
      * constructor; [|constructor].
        exists hn. cbn [handle open ep_in iface]. repeat split; try assumption.
        -- exists i. apply in_or_app. right. now left.
        -- exists r. split; [assumption|]. apply in_or_app. right. now right.
        -- intros c Hi Hh. apply in_app_or in Hi. destruct Hi as [Hi | [<- | Hi]].
           ++ specialize (Icalls c hn Hi Hh). lia.
           ++ left. now exists i.
           ++ right. rewrite Forall_forall in Hmid. now apply Hmid.
    + rewrite map_app. cbn [map handle].
      apply NoDup_app.
      * assumption.
      * repeat constructor. intros [].
      * intros x Hx [<- | []]. apply in_map_iff in Hx.
        destruct Hx as (e & He1 & He2). now apply (Hold e He2 hn).
    + intros d h Ho. apply in_app_or in Ho. rewrite map_app.
      destruct Ho as [Ho | Ho].
      * destruct (Iopened d h Ho) as [Hcl | Hreg].
        -- left. apply in_or_app. now left.
        -- right. apply in_or_app. now left.
      * right. apply in_or_app. right.
        assert (E : call_handle (Call_open d (Some h)) = Some hn)
          by (rewrite Forall_forall in Hnew; now apply Hnew).
        cbn in E. injection E as ->. now left.
Qed.

Section Pass.
Variables (max vid pid usage_page usage : Z).
Variables (b0 : libusb_device_handle) (pre : list usb_call).

Lemma altsetting_body_state (i : nat) (j : Z) (a : altsetting)
    (l : locals) (w : world) :
  pass_state b0 pre (l, w) ->
  pass_state b0 pre (altsetting_body usage_page usage i j a l w).
Proof.
  intros (pass & Hc & I). cbn [fst snd] in *.
  apply (tried_preserves b0 pre pass i j l _ w _ Hc I).
  apply altsetting_body_tried.
Qed.

Lemma altsetting_loop_state (i : nat) (j : Z) (alts : list altsetting) :
  forall l w,
    pass_state b0 pre (l, w) ->
    pass_state b0 pre (altsetting_loop usage_page usage i j alts l w).
Proof.
  induction alts as [|a rest IH]; intros l w H; cbn [altsetting_loop].
  - exact H.
  - pose proof (altsetting_body_state i j a l w H) as H'.
    destruct (altsetting_body usage_page usage i j a l w) as [l' w'].
    now apply IH.
Qed.

Lemma interface_loop_state (i : nat) (ifaces : list libusb_interface) :
  forall j l w,
    pass_state b0 pre (l, w) ->
    pass_state b0 pre (interface_loop max usage_page usage i j ifaces l w).
Proof.
  induction ifaces as [|alts rest IH]; intros j l w H; cbn [interface_loop].
  - exact H.
  - destruct (count l <? max); [|exact H].
    pose proof (altsetting_loop_state i j alts l w H) as H'.
    destruct (altsetting_loop usage_page usage i j alts l w) as [l' w'].
    now apply IH.
Qed.

Lemma device_body_state (i : nat) (dev : libusb_device) (l : locals) (w : world) :
  pass_state b0 pre (l, w) ->
  pass_state b0 pre (device_body max vid pid usage_page usage i dev l w).
Proof.
  intros H. unfold device_body.
  destruct (device_descriptor dev) as [desc|]; [|exact H].
  destruct (_ && _); [exact H|]. destruct (_ && _); [exact H|].
  destruct (config_descriptor dev) as [ifaces|]; [|exact H].
  now apply interface_loop_state.
Qed.

Lemma device_loop_state (devs : list libusb_device) :
  forall i l w,
    pass_state b0 pre (l, w) ->
    pass_state b0 pre (device_loop max vid pid usage_page usage i devs l w).
Proof.
  induction devs as [|dev rest IH]; intros i l w H; cbn [device_loop].
  - exact H.
  - destruct (count l <? max); [|exact H].
    pose proof (device_body_state i dev l w H) as H'.
    destruct (device_body max vid pid usage_page usage i dev l w) as [l' w'].
    now apply IH.
Qed.
End Pass.

Lemma close_each_calls (p : list hid_t) :
  snd (close_each p) = flat_map teardown p.
Proof.
  induction p as [|hid next IH]; [reflexivity|].
  cbn [close_each flat_map]. unfold hid_close at 1, teardown at 1.
  destruct (close_each next) as [next' cs]. cbn [snd] in IH. rewrite <- IH.
  destruct (handle hid); reflexivity.
Qed.

Lemma free_all_hid_world (w : world) :
  free_all_hid w
  = mk_world [] (next_handle w) (calls w ++ flat_map teardown (first_hid w)).
Proof.
  unfold free_all_hid. rewrite <- close_each_calls.
  destruct (close_each (first_hid w)). reflexivity.
Qed.

Lemma pass_start (w : world) :
  first_hid w = [] -> pass_state (next_handle w) (calls w) (mk_locals 0 0 0, w).
Proof.
  intros E. exists []. cbn [fst snd count]. split; [now rewrite app_nil_r|].
  constructor; rewrite ?E; cbn; try constructor; try lia; intros; contradiction.
Qed.

(** What every call of [rawhid_open] does: it tears down the entries it
    finds, then makes the calls of a pass whose state is the world it
    leaves and the count it returns. *)
Lemma rawhid_open_pass (max vid pid usage_page usage : Z)
    (devs : option (list libusb_device)) (w : world) :
  exists pass,
    calls (snd (rawhid_open max vid pid usage_page usage devs w))
    = calls w ++ flat_map teardown (first_hid w) ++ pass /\
    pass_inv (next_handle w) pass
      (fst (rawhid_open max vid pid usage_page usage devs w))
      (snd (rawhid_open max vid pid usage_page usage devs w)).
Proof.
  unfold rawhid_open.
  set (w0 := match first_hid w with [] => w | _ :: _ => free_all_hid w end).
  assert (E0 : w0 = mk_world [] (next_handle w)
                      (calls w ++ flat_map teardown (first_hid w))).
  { unfold w0. destruct (first_hid w) eqn:E.
    - cbn. rewrite app_nil_r. destruct w; cbn in *; now subst.
    - rewrite free_all_hid_world, E. reflexivity. }
  assert (S0 : pass_state (next_handle w)
                 (calls w ++ flat_map teardown (first_hid w))
                 (mk_locals 0 0 0, w0)).
  { rewrite E0. apply (pass_start (mk_world [] _ _)). reflexivity. }
  assert (Z0 : exists pass,
            calls w0 = calls w ++ flat_map teardown (first_hid w) ++ pass /\
            pass_inv (next_handle w) pass 0 w0).
  { destruct S0 as (pass & Hc & I). exists pass.
    split; [rewrite app_assoc; exact Hc | exact I]. }
  destruct (max <? 1); [exact Z0|].
  destruct devs as [devs|]; [|exact Z0].
  pose proof (device_loop_state max vid pid usage_page usage _ _ devs 0%nat _ _ S0)
    as (pass & Hc & I).
  destruct (device_loop _ _ _ _ _ _ _ _ _) as [l' w'].
  exists pass. split; [rewrite app_assoc; exact Hc | exact I].
Qed.



(** C7: of two calls of [rawhid_open] in a row, the second starts by
    releasing the interface and closing the connection of every entry the
    first one left, in list order; everything else it asks of the stack
    comes after that, and each entry it leaves owns a connection opened in
    that later part and is not an entry of the first call. *)
Theorem second_open_replaces_first
    (max1 vid1 pid1 usage_page1 usage1 : Z) (devs1 : option (list libusb_device))
    (max2 vid2 pid2 usage_page2 usage2 : Z) (devs2 : option (list libusb_device))
    (w0 : world) :
  let w1 := snd (rawhid_open max1 vid1 pid1 usage_page1 usage1 devs1 w0) in
  let w2 := snd (rawhid_open max2 vid2 pid2 usage_page2 usage2 devs2 w1) in
  exists pass2,
    calls w2 = calls w1 ++ flat_map teardown (first_hid w1) ++ pass2 /\
    (forall e, In e (first_hid w1) ->
       exists h, handle e = Some h /\
         teardown e = [Call_release_interface h (iface e); Call_close h]) /\
    (forall e, In e (first_hid w2) ->
       ~ In e (first_hid w1) /\
       exists h d, handle e = Some h /\ In (Call_open d (Some h)) pass2).
Proof.
  intros w1 w2.
  destruct (rawhid_open_pass max1 vid1 pid1 usage_page1 usage1 devs1 w0)
    as (pass1 & Hc1 & I1).
  destruct (rawhid_open_pass max2 vid2 pid2 usage_page2 usage2 devs2 w1)
    as (pass2 & Hc2 & I2).
  fold w1 in Hc1, I1. fold w2 in Hc2, I2.
  exists pass2. split; [exact Hc2|]. split.
  - intros e He.
    destruct (backed_handle_bound _ _ _ _ e I1 He) as (h & Hh & _).
    exists h. split; [exact Hh|]. unfold teardown. now rewrite Hh.
  - intros e He.
    destruct (backed_handle_bound _ _ _ _ e I2 He) as (h & Hh & Hb).
    split.
    + intros He1.
      destruct (backed_handle_bound _ _ _ _ e I1 He1) as (h' & Hh' & Hb').
      rewrite Hh in Hh'. injection Hh' as <-. lia.
    + pose proof (proj1 (Forall_forall _ _) (inv_backed _ _ _ _ I2) e He) as B.
      destruct B as (h' & Hh' & _ & _ & (d & Hd) & _).
      exists h', d. now split.
Qed.

(** C10: with [max < 1], [rawhid_open] returns 0 and leaves the list empty
    after releasing and closing every entry it found; the only calls it
    makes are those of that teardown, so it opens nothing. *)
Theorem open_with_max_below_1 (max vid pid usage_page usage : Z)
    (devs : option (list libusb_device)) (w : world) :
  max < 1 ->
  rawhid_open max vid pid usage_page usage devs w
  = (0, mk_world [] (next_handle w)
          (calls w ++ flat_map teardown (first_hid w))) /\
  (forall e h, In e (first_hid w) -> handle e = Some h ->
     In (Call_release_interface h (iface e)) (flat_map teardown (first_hid w)) /\
     In (Call_close h) (flat_map teardown (first_hid w))) /\
  (forall d h, ~ In (Call_open d h) (flat_map teardown (first_hid w))).
Proof.
  intros Hmax. split; [|split].
  - unfold rawhid_open. rewrite (proj2 (Z.ltb_lt max 1) Hmax).
    destruct (first_hid w) eqn:E.
    + cbn. rewrite app_nil_r. destruct w; cbn in *; now subst.
    + rewrite free_all_hid_world, E. reflexivity.
  - intros e h He Hh. split; apply in_flat_map; exists e;
      (split; [exact He|]); unfold teardown; rewrite Hh; cbn; auto.
  - intros d h Hin. apply in_flat_map in Hin. destruct Hin as (e & _ & Hin).
    unfold teardown in Hin. destruct (handle e); cbn in Hin;
      [destruct Hin as [Hin | [Hin | []]]; discriminate | contradiction].
Qed.

Lemma open_with_max_below_1_witness :
  rawhid_open 0 (-1) (-1) (-1) (-1) None
    (mk_world [mk_hid (Some 0%nat) 1 0 3 4] 1%nat [])
  = (0, mk_world [] 1%nat [Call_release_interface 0%nat 0; Call_close 0%nat]).
Proof.
  exact (proj1 (open_with_max_below_1 0 (-1) (-1) (-1) (-1) None
                  (mk_world [mk_hid (Some 0%nat) 1 0 3 4] 1%nat []) eq_refl)).
Defined.

(** ** Closing and receiving *)

Lemma store_store (l : list hid_t) (pos : nat) (x y : hid_t) :
  store (store l pos x) pos y = store l pos y.
Proof.
  revert pos. induction l as [|a l IH]; intros [|pos]; cbn; try reflexivity.
  now rewrite IH.
Qed.

(** Looking a node up again after writing through its pointer finds the
    same node with the new contents. *)
Lemma get_hid_from_store (l : list hid_t) (hid' : hid_t) :
  forall k num pos hid,
    get_hid_from l k num = Some (pos, hid) ->
    (k <= pos)%nat /\
    get_hid_from (store l (pos - k) hid') k num = Some (pos, hid').
Proof.
  induction l as [|x next IH]; intros k num pos hid H; cbn [get_hid_from] in H.
  - discriminate.
  - destruct (num >? 0) eqn:E.
    + destruct (IH _ _ _ _ H) as [Hk Hg]. split; [lia|].
      replace (pos - k)%nat with (S (pos - S k)) by lia.
      cbn [store get_hid_from]. now rewrite E.
    + injection H as <- <-. split; [lia|].
      rewrite Nat.sub_diag. cbn [store get_hid_from]. now rewrite E.
Qed.

(** C9: closing the same index twice changes nothing the second time, and
    the two calls together ask the stack for at most one release and one
    close. *)
Theorem close_twice (num : Z) (w : world) :
  rawhid_close num (rawhid_close num w) = rawhid_close num w /\
  exists cs,
    calls (rawhid_close num (rawhid_close num w)) = calls w ++ cs /\
    (cs = [] \/ exists h j, cs = [Call_release_interface h j; Call_close h]).
Proof.
  assert (Idem : rawhid_close num (rawhid_close num w) = rawhid_close num w).
  { unfold rawhid_close at 2 3. unfold get_hid.
    destruct (get_hid_from (first_hid w) 0 num) as [[pos hid]|] eqn:G.
    - destruct (open hid =? 0) eqn:O.
      + unfold rawhid_close, get_hid. now rewrite G, O.
      + destruct (get_hid_from_store _ (fst (hid_close hid)) _ _ _ _ G) as [_ G'].
        rewrite Nat.sub_0_r in G'.
        unfold hid_close in *. destruct (handle hid) as [h|] eqn:Hh;
          cbn [fst] in G'; unfold rawhid_close, get_hid;
          cbn [first_hid next_handle calls]; rewrite G'; cbn [open handle];
          rewrite ?O, ?Hh; unfold hid_close; cbn [handle]; rewrite ?Hh;
          rewrite store_store, ?app_nil_r; reflexivity.
    - unfold rawhid_close, get_hid. now rewrite G. }
  split; [exact Idem|]. rewrite Idem.
  unfold rawhid_close. destruct (get_hid w num) as [[pos hid]|].
  - destruct (open hid =? 0).
    + exists []. split; [now rewrite app_nil_r | now left].
    + unfold hid_close. destruct (handle hid) as [h|].
      * eexists. split; [reflexivity|]. right. now exists h, (iface hid).
      * exists []. split; [reflexivity | now left].
  - exists []. split; [now rewrite app_nil_r | now left].
Qed.

(** The parts of the contract of [rawhid_recv] that hold: an index at or
    past the end of the list, or an entry whose [open] field is 0, gives
    -1 without a transfer. *)
Lemma get_hid_past_end (l : list hid_t) :
  forall k num, Z.of_nat (length l) <= num -> get_hid_from l k num = None.
Proof.
  induction l as [|x next IH]; intros k num H; cbn [get_hid_from]; [reflexivity|].
  cbn [length] in H. destruct (Z.gtb_spec num 0); [|lia]. apply IH. lia.
Qed.

Lemma rawhid_recv_no_entry (num len timeout : Z) (answer : Z * Z) (w : world) :
  Z.of_nat (length (first_hid w)) <= num ->
  rawhid_recv num len timeout answer w = (-1, w).
Proof.
  intros H. unfold rawhid_recv, get_hid. now rewrite get_hid_past_end.
Qed.

Lemma get_hid_in_range (l : list hid_t) :
  forall k num hid,
    0 <= num -> nth_error l (Z.to_nat num) = Some hid ->
    get_hid_from l k num = Some ((k + Z.to_nat num)%nat, hid).
Proof.
  induction l as [|x next IH]; intros k num hid H0 Hn; cbn [get_hid_from].
  - destruct (Z.to_nat num); discriminate.
  - destruct (Z.gtb_spec num 0).
    + replace (Z.to_nat num) with (S (Z.to_nat (num - 1))) in * by lia.
      cbn [nth_error] in Hn. rewrite (IH (S k) (num - 1) hid) by (lia || assumption).
      f_equal. f_equal. lia.
    + replace num with 0 in * by lia. cbn in Hn. injection Hn as ->.
      f_equal. f_equal. cbn. lia.
Qed.

(** On an entry whose [open] field is set, the result follows the answer
    of the interrupt transfer: the byte count on success, 0 on a timeout,
    -1 on any other failure. *)
Lemma rawhid_recv_open_entry (num len timeout r transferred : Z) (w : world)
    (hid : hid_t) :
  0 <= num -> nth_error (first_hid w) (Z.to_nat num) = Some hid ->
  open hid <> 0 ->
  fst (rawhid_recv num len timeout (r, transferred) w)
  = if r =? 0 then transferred
    else if r =? LIBUSB_ERROR_TIMEOUT then 0 else -1.
Proof.
  intros H0 Hn Ho. unfold rawhid_recv, get_hid.
  rewrite (get_hid_in_range _ _ _ _ H0 Hn).
  rewrite (proj2 (Z.eqb_neq _ _) Ho).
  destruct (r =? 0); [reflexivity|]. destruct (r =? LIBUSB_ERROR_TIMEOUT); reflexivity.
Qed.

Lemma rawhid_recv_not_open (num len timeout : Z) (answer : Z * Z) (w : world)
    (hid : hid_t) :
  0 <= num -> nth_error (first_hid w) (Z.to_nat num) = Some hid ->
  open hid = 0 ->
  rawhid_recv num len timeout answer w = (-1, w).
Proof.
  intros H0 Hn Ho. unfold rawhid_recv, get_hid.
  rewrite (get_hid_in_range _ _ _ _ H0 Hn). now rewrite Ho.
Qed.

(** C4, where the code departs from it: after [rawhid_close(0)] the entry
    keeps [open = 1] with a NULL handle, so [rawhid_recv(0, ...)] passes the
    guard, hands the NULL handle to the interrupt transfer and returns
    what the transfer reports (here 64 bytes) instead of -1. *)
Theorem recv_on_closed_entry :
  first_hid (rawhid_close 0 teensy_opened) = [mk_hid None 1 0 3 4] /\
  rawhid_recv 0 64 100 (0, 64) (rawhid_close 0 teensy_opened)
  = (64, log (rawhid_close 0 teensy_opened)
           [Call_interrupt_transfer None 0x83 64 100]).
Proof. split; vm_compute; reflexivity. Qed.

(** ** Discovery against the requested maximum *)

Lemma tried_count (i : nat) (j : Z) (l l' : locals) (w w' : world) :
  tried i j l w l' w' -> count l <= count l' <= count l + 1.
Proof. intros []; lia. Qed.

Section Bound.
Variables (max vid pid usage_page usage : Z).

Lemma altsetting_loop_count (i : nat) (j : Z) (alts : list altsetting)
    (l : locals) (w : world) :
  (length alts <= 1)%nat ->
  count (fst (altsetting_loop usage_page usage i j alts l w)) <= count l + 1.
Proof.
  destruct alts as [|a [|b rest]]; cbn [length altsetting_loop]; intros H;
    [cbn; lia | | lia].
  pose proof (tried_count _ _ _ _ _ _
                (altsetting_body_tried usage_page usage i j a l w)) as T.
  destruct (altsetting_body usage_page usage i j a l w). cbn [fst] in *. lia.
Qed.

Lemma interface_loop_count (i : nat) (ifaces : list libusb_interface) :
  forall j l w,
    Forall (fun alts : libusb_interface => (length alts <= 1)%nat) ifaces ->
    count l <= max ->
    count (fst (interface_loop max usage_page usage i j ifaces l w)) <= max.
Proof.
  induction ifaces as [|alts rest IH]; intros j l w HF Hl;
    cbn [interface_loop]; [exact Hl|].
  inversion HF as [|? ? H1 Hrest]; subst.
  destruct (Z.ltb_spec (count l) max); [|exact Hl].
  pose proof (altsetting_loop_count i j alts l w H1) as B.
  destruct (altsetting_loop usage_page usage i j alts l w) as [l' w'].
  cbn [fst] in B. apply IH; [exact Hrest | lia].
Qed.

Lemma device_loop_count (devs : list libusb_device) :
  forall i l w,
    Forall single_altsettings devs -> count l <= max ->
    count (fst (device_loop max vid pid usage_page usage i devs l w)) <= max.
Proof.
  induction devs as [|dev rest IH]; intros i l w HF Hl;
    cbn [device_loop]; [exact Hl|].
  inversion HF as [|? ? H1 Hrest]; subst.
  destruct (count l <? max); [|exact Hl].
  assert (B : count (fst (device_body max vid pid usage_page usage i dev l w))
              <= max).
  { unfold device_body, single_altsettings in *.
    destruct (device_descriptor dev); [|exact Hl].
    destruct (_ && _); [exact Hl|]. destruct (_ && _); [exact Hl|].
    destruct (config_descriptor dev); [|exact Hl].
    now apply interface_loop_count. }
  destruct (device_body max vid pid usage_page usage i dev l w) as [l' w'].
  now apply IH.
Qed.
End Bound.

(** What does hold of the bound: when no interface has more than one
    alternate setting, a call with [max >= 1] returns at most [max]. *)
Lemma open_within_max_single_altsetting (max vid pid usage_page usage : Z)
    (devs : list libusb_device) (w : world) :
  1 <= max -> Forall single_altsettings devs ->
  fst (rawhid_open max vid pid usage_page usage (Some devs) w) <= max.
Proof.
  intros Hmax HF. unfold rawhid_open.
  destruct (Z.ltb_spec max 1); [lia|].
  match goal with
  | |- context [device_loop ?a ?b ?c ?d ?e ?i ?ds ?l ?w0] =>
      pose proof (device_loop_count a b c d e ds i l w0 HF) as B;
      destruct (device_loop a b c d e i ds l w0) as [l' w']
  end.
  cbn [fst count] in *. lia.
Qed.


(** ** Usage page and usage of a candidate *)

(** C2 as stated fails, in two ways. The usage page compared is not that
    of the first tag-4 item: in [two_pages_report] the first usage page is
    1 and the first usage is 2, yet asking for page 1 finds nothing and
    asking for page 5 finds the device. And [parsed_usage_page] and
    [parsed_usage] are not reset between candidates: after a device with
    page 0xFFAB and usage 0x0200, a second device whose own descriptor
    has no item at all is registered under wildcard filters. *)
Lemma compared_usage_is_not_first_of_own :
  (first_item 4 (items_of two_pages_report) = Some 1 /\
   first_item 8 (items_of two_pages_report) = Some 2 /\
   fst (rawhid_open 1 (-1) (-1) 1 2 (Some two_pages_device) empty_world) = 0 /\
   fst (rawhid_open 1 (-1) (-1) 5 2 (Some two_pages_device) empty_world) = 1) /\
  (items_of [] = [] /\
   parse_descriptor [] 0 0 = (0, 0) /\
   fst (rawhid_open 2 (-1) (-1) (-1) (-1) (Some teensy_then_blank) empty_world) = 2 /\
   length (first_hid (snd (rawhid_open 2 (-1) (-1) (-1) (-1)
                             (Some teensy_then_blank) empty_world))) = 2%nat).
Proof. vm_compute. repeat split; reflexivity. Qed.

Ltac unchanged :=
  cbn [fst snd first_hid log count]; split; [left|]; now split.

(** C2, as the code has it, for a candidate reached while
    [parsed_usage_page] and [parsed_usage] are still 0: the candidate is
    registered only if its report descriptor was fetched and the values
    that following its own items leaves ([latest_usage]: each tag-4 or
    tag-8 item replaces the value, up to the first decode failure or the
    point where both are non-zero) are both non-zero and equal to the
    filters that are set; in particular, when either of these values is 0
    the candidate is not registered, whatever the filters. *)
Theorem own_descriptor_decides (usage_page usage : Z) (i : nat) (j : Z)
    (a : altsetting) (l : locals) (w : world) :
  parsed_usage_page l = 0 -> parsed_usage l = 0 ->
  let l' := fst (altsetting_body usage_page usage i j a l w) in
  let w' := snd (altsetting_body usage_page usage i j a l w) in
  ((first_hid w' = first_hid w /\ count l' = count l) \/
   (exists d e,
      report_descriptor (answers a) = Some d /\
      first_hid w' = first_hid w ++ [e] /\ count l' = count l + 1 /\
      (parsed_usage_page l', parsed_usage l') = latest_usage (items_of d) 0 0 /\
      parsed_usage_page l' <> 0 /\ parsed_usage l' <> 0 /\
      (usage_page > 0 -> parsed_usage_page l' = usage_page) /\
      (usage > 0 -> parsed_usage l' = usage))) /\
  (forall d,
     report_descriptor (answers a) = Some d ->
     fst (latest_usage (items_of d) 0 0) = 0 \/
     snd (latest_usage (items_of d) 0 0) = 0 ->
     first_hid w' = first_hid w /\ count l' = count l).
Proof.
  intros Hp Hu l' w'. subst l' w'. unfold altsetting_body.
  rewrite Hp, Hu.
  destruct (negb (bInterfaceClass (iface_desc a) =? LIBUSB_CLASS_HID));
    [unchanged|].
  destruct (negb (bInterfaceSubClass (iface_desc a) =? 0)); [unchanged|].
  destruct (negb (bInterfaceProtocol (iface_desc a) =? 0)); [unchanged|].
  destruct (endpoint_loop (endpoint (iface_desc a)) 0 0) as [e_in e_out].
  destruct (e_in =? 0); [unchanged|].
  destruct (open_r (answers a) <? 0); [unchanged|].
  assert (Rest :
    forall w1 : world, first_hid w1 = first_hid w ->
    let r :=
      match report_descriptor (answers a) with
      | None => (l, log w1 [Call_release_interface (next_handle w) j;
                            Call_close (next_handle w)])
      | Some bytes =>
          let (pup, pu) := parse_descriptor bytes 0 0 in
          let l0 := mk_locals (count l) pup pu in
          if (pup =? 0) || (pu =? 0)
             || ((usage_page >? 0) && negb (pup =? usage_page))
             || ((usage >? 0) && negb (pu =? usage))
          then (l0, log w1 [Call_release_interface (next_handle w) j;
                            Call_close (next_handle w)]) else
          if negb (malloc_ok (answers a))
          then (l0, log w1 [Call_release_interface (next_handle w) j;
                            Call_close (next_handle w)]) else
          (mk_locals (count l0 + 1) pup pu,
           add_hid (mk_hid (Some (next_handle w)) 1 j e_in e_out) w1)
      end in
    ((first_hid (snd r) = first_hid w /\ count (fst r) = count l) \/
     (exists d e,
        report_descriptor (answers a) = Some d /\
        first_hid (snd r) = first_hid w ++ [e] /\ count (fst r) = count l + 1 /\
        (parsed_usage_page (fst r), parsed_usage (fst r))
        = latest_usage (items_of d) 0 0 /\
        parsed_usage_page (fst r) <> 0 /\ parsed_usage (fst r) <> 0 /\
        (usage_page > 0 -> parsed_usage_page (fst r) = usage_page) /\
        (usage > 0 -> parsed_usage (fst r) = usage))) /\
    (forall d,
       report_descriptor (answers a) = Some d ->
       fst (latest_usage (items_of d) 0 0) = 0 \/
       snd (latest_usage (items_of d) 0 0) = 0 ->
       first_hid (snd r) = first_hid w /\ count (fst r) = count l)).
  { intros w1 E1 r. subst r.
    destruct (report_descriptor (answers a)) as [bytes|];
      [|cbn [fst snd first_hid log]; split; [left; now split | discriminate]].
    rewrite parse_descriptor_latest.
    destruct (latest_usage (items_of bytes) 0 0) as [pup pu] eqn:L.
    assert (Same : forall d, Some bytes = Some d ->
              fst (latest_usage (items_of d) 0 0) = 0 \/
              snd (latest_usage (items_of d) 0 0) = 0 -> pup = 0 \/ pu = 0).
    { intros d Hd. injection Hd as <-. now rewrite L. }
    destruct (Z.eqb_spec pup 0) as [Ep | Ep]; cbn [orb];
      [cbn [fst snd first_hid log count]; split; [left|]; now split|].
    destruct (Z.eqb_spec pu 0) as [Eu | Eu]; cbn [orb];
      [cbn [fst snd first_hid log count]; split; [left|]; now split|].
    destruct ((usage_page >? 0) && negb (pup =? usage_page)) eqn:Fp; cbn [orb];
      [cbn [fst snd first_hid log count]; split; [left|]; now split|].
    destruct ((usage >? 0) && negb (pu =? usage)) eqn:Fu; cbn [orb];
      [cbn [fst snd first_hid log count]; split; [left|]; now split|].
    destruct (negb (malloc_ok (answers a)));
      [cbn [fst snd first_hid log count]; split; [left|]; now split|].
    rewrite add_hid_world.
    cbn [fst snd first_hid count parsed_usage_page parsed_usage]. split.
    - right. exists bytes. eexists. rewrite E1.
      split; [reflexivity|]. split; [reflexivity|]. split; [reflexivity|].
      split; [symmetry; exact L|]. split; [exact Ep|]. split; [exact Eu|].
      split; intros Hf.
      + apply andb_false_iff in Fp. destruct Fp as [Fp | Fp].
        * destruct (Z.gtb_spec usage_page 0); [discriminate | lia].
        * apply negb_false_iff in Fp. now apply Z.eqb_eq.
      + apply andb_false_iff in Fu. destruct Fu as [Fu | Fu].
        * destruct (Z.gtb_spec usage 0); [discriminate | lia].
        * apply negb_false_iff in Fu. now apply Z.eqb_eq.
    - intros d Hd Hz. destruct (Same d Hd Hz); contradiction. }
  destruct (negb (kernel_driver_active_r (answers a) =? 0)); cbn [andb].
  - destruct (detach_kernel_driver_r (answers a) <? 0); [unchanged|].
    destruct (claim_interface_r (answers a) <? 0); [unchanged|].
    apply Rest. reflexivity.
  - destruct (claim_interface_r (answers a) <? 0); [unchanged|].
    apply Rest. reflexivity.
Qed.

Lemma own_descriptor_decides_witness :
  first_hid (snd (altsetting_body (-1) (-1) 0 0 (rawhid_alt []) (mk_locals 0 0 0)
                    empty_world)) = [] /\
  count (fst (altsetting_body (-1) (-1) 0 0 (rawhid_alt []) (mk_locals 0 0 0)
                empty_world)) = 0.
Proof.
  exact (proj2 (own_descriptor_decides (-1) (-1) 0 0 (rawhid_alt [])
                  (mk_locals 0 0 0) empty_world eq_refl eq_refl)
               [] eq_refl (or_introl eq_refl)).
Defined.

(** * Further properties *)

(** ** The item decoder, continued *)

(** X1: outside the bounds condition the decoder always succeeds: the tag
    returned lies in 0..255, the value fits 32 bits, and the cursor moves
    forward by at least 1 and at most 261 bytes. *)
Theorem decode_succeeds (m : memory) (val p end_ : Z) :
  ~ out_of_bounds m p end_ ->
  0 <= p_ret (fst (run (hid_parse_item val p end_) m)) <= 255 /\
  0 <= p_val (fst (run (hid_parse_item val p end_) m)) < 2 ^ 32 /\
  p + 1 <= p_data (fst (run (hid_parse_item val p end_) m)) <= p + 261.
Proof.
  intros Hok. unfold out_of_bounds in Hok.
  pose proof (u8_range (m p)) as R0.
  pose proof (u8_range (m (p + 1))) as R1.
  pose proof (u8_range (m (p + 2))) as R2.
  assert (T : 0 <= Z.land (u8 (m p)) 252 <= 255).
  { assert (N : 0 <= Z.land (u8 (m p)) 252) by (apply Z.land_nonneg; lia).
    split; [exact N|].
    destruct (Z.eq_dec (Z.land (u8 (m p)) 252) 0) as [-> | NZ]; [lia|].
    assert (L : Z.land (u8 (m p)) 252 < 2 ^ 8); [|change (2 ^ 8) with 256 in L; lia].
    apply Z.log2_lt_pow2; [lia|].
    pose proof (Z.log2_land (u8 (m p)) 252) as B.
    change (Z.log2 252) with 7 in B. lia. }
  assert (M : forall z, 0 <= z mod 2 ^ 32 < 2 ^ 32)
    by (intros z; apply Z.mod_pos_bound; reflexivity).
  parse_step. bound_case; [exfalso; apply Hok; left; lia|].
  destruct (Z.eqb_spec (u8 (m p)) 254) as [E254 | N254].
  - bound_case; [exfalso; apply Hok; right; left; split; [assumption | left; lia]|].
    bound_case; [exfalso; apply Hok; right; left; split; [assumption | right; lia]|].
    cbn [p_ret p_val p_data]. change (2 ^ 32) with 4294967296. lia.
  - destruct (land3_cases (u8 (m p))) as [E | [E | [E | E]]];
      [lia | | | |]; rewrite E in *;
      cbv beta iota zeta delta [table] in *; bound_case;
      try (exfalso; apply Hok; right; right; split; [assumption | lia]);
      rewrite ?E; cbv beta iota; cbn [fst p_ret p_val p_data]; unfold u32;
      (split; [exact T | split; [first [apply M | change (2 ^ 32) with 4294967296; lia] | lia]]).
Qed.

Lemma decode_succeeds_witness :
  0 <= p_ret (fst (run (hid_parse_item 0 3 9) (mem_of teensy_report))) <= 255 /\
  0 <= p_val (fst (run (hid_parse_item 0 3 9) (mem_of teensy_report))) < 2 ^ 32 /\
  3 + 1 <= p_data (fst (run (hid_parse_item 0 3 9) (mem_of teensy_report)))
        <= 3 + 261.
Proof.
  refine (decode_succeeds (mem_of teensy_report) 0 3 9 _).
  unfold out_of_bounds. vm_compute.
  intros [H | [[H _] | [_ H]]]; [now apply H | discriminate H | now apply H].
Defined.

Lemma hid_parse_item_ext_witness :
  run (hid_parse_item 0 0 4) (mem_of teensy_report)
  = run (hid_parse_item 0 0 4) (mem_of (bytes_of [0x06; 0xAB; 0xFF; 0x0A; 0x55])).
Proof.
  refine (hid_parse_item_ext (mem_of teensy_report)
            (mem_of (bytes_of [0x06; 0xAB; 0xFF; 0x0A; 0x55])) 0 0 4 _).
  intros a Ha.
  assert (C : a = 0 \/ a = 1 \/ a = 2 \/ a = 3) by lia.
  destruct C as [-> | [-> | [-> | ->]]]; reflexivity.
Defined.

(** X3: a short item that decodes leaves the cursor strictly before
    [end_]: an item whose last byte is the last byte of the buffer is
    never decoded. *)
Theorem short_item_stops_before_end (m : memory) (val p end_ : Z) :
  u8 (m p) <> 0xFE ->
  0 <= p_ret (fst (run (hid_parse_item val p end_) m)) ->
  p_data (fst (run (hid_parse_item val p end_) m)) < end_.
Proof.
  intros N254. parse_step. bound_case; [cbn; lia|].
  rewrite (eqb_false _ _ N254).
  destruct (land3_cases (u8 (m p))) as [E | [E | [E | E]]];
    [pose proof (u8_range (m p)); lia | | | |]; rewrite E;
    cbv beta iota zeta delta [table]; bound_case;
    rewrite ?E; cbv beta iota; cbn [fst p_ret p_data]; lia.
Qed.

Lemma short_item_stops_before_end_witness :
  p_data (fst (run (hid_parse_item 0 3 9) (mem_of teensy_report))) < 9.
Proof.
  refine (short_item_stops_before_end (mem_of teensy_report) 0 3 9 _ _).
  - vm_compute. discriminate.
  - vm_compute. discriminate.
Defined.

(** ** The list of opened devices, continued *)

Lemma get_hid_from_nth (l : list hid_t) :
  forall k num pos hid,
    get_hid_from l k num = Some (pos, hid) ->
    (k <= pos)%nat /\ nth_error l (pos - k) = Some hid.
Proof.
  induction l as [|x next IH]; intros k num pos hid H; cbn [get_hid_from] in H.
  - discriminate.
  - destruct (num >? 0).
    + destruct (IH _ _ _ _ H) as [Hk Hn]. split; [lia|].
      replace (pos - k)%nat with (S (pos - S k)) by lia. exact Hn.
    + injection H as <- <-. split; [lia|]. now rewrite Nat.sub_diag.
Qed.

Lemma get_hid_nth_error (w : world) (num : Z) :
  0 <= num ->
  get_hid w num
  = option_map (fun hid => (Z.to_nat num, hid))
               (nth_error (first_hid w) (Z.to_nat num)).
Proof.
  intros H0. unfold get_hid.
  destruct (nth_error (first_hid w) (Z.to_nat num)) as [hid|] eqn:E.
  - now rewrite (get_hid_in_range _ 0%nat num hid H0 E).
  - apply get_hid_past_end. apply nth_error_None in E. lia.
Qed.

Lemma store_length (l : list hid_t) (pos : nat) (x : hid_t) :
  length (store l pos x) = length l.
Proof.
  revert pos. induction l as [|a l IH]; intros [|pos]; cbn; try reflexivity.
  now rewrite IH.
Qed.

Lemma store_nth_error (l : list hid_t) (x : hid_t) :
  forall pos k,
    nth_error (store l pos x) k
    = if Nat.eqb k pos
      then match nth_error l k with Some _ => Some x | None => None end
      else nth_error l k.
Proof.
  induction l as [|a l IH]; intros [|pos] [|k]; cbn; try reflexivity.
  - now destruct (Nat.eqb k pos).
  - apply IH.
Qed.

(** X4: [add_hid] appends: looking up the index that was one past the end
    finds the new node, and every index below it finds what it found
    before. *)
Theorem get_hid_after_add (h : hid_t) (w : world) (num : Z) :
  0 <= num <= Z.of_nat (length (first_hid w)) ->
  get_hid (add_hid h w) num
  = if num =? Z.of_nat (length (first_hid w))
    then Some (length (first_hid w), h)
    else get_hid w num.
Proof.
  intros [H0 H1]. rewrite !get_hid_nth_error by exact H0.
  rewrite add_hid_world. cbn [first_hid].
  destruct (Z.eqb_spec num (Z.of_nat (length (first_hid w)))) as [E | N].
  - replace (Z.to_nat num) with (length (first_hid w)) by lia.
    rewrite nth_error_app2 by lia. now rewrite Nat.sub_diag.
  - rewrite nth_error_app1 by lia. reflexivity.
Qed.

Lemma get_hid_after_add_witness :
  get_hid (add_hid (mk_hid (Some 7%nat) 1 2 3 0) teensy_opened) 1
  = Some (1%nat, mk_hid (Some 7%nat) 1 2 3 0).
Proof.
  refine (get_hid_after_add (mk_hid (Some 7%nat) 1 2 3 0) teensy_opened 1 _).
  vm_compute. split; discriminate.
Defined.

(** X5: an index that is negative is not rejected: [get_hid] returns the
    first node for it, so [rawhid_close], [rawhid_recv] and [rawhid_send]
    act on entry 0. *)
Theorem negative_index_is_first (num : Z) (w : world) :
  num < 0 ->
  get_hid w num = get_hid w 0 /\
  rawhid_close num w = rawhid_close 0 w /\
  (forall len timeout answer,
     rawhid_recv num len timeout answer w = rawhid_recv 0 len timeout answer w) /\
  (forall len timeout ia ca,
     rawhid_send num len timeout ia ca w = rawhid_send 0 len timeout ia ca w).
Proof.
  intros Hn.
  assert (G : get_hid w num = get_hid w 0).
  { unfold get_hid. destruct (first_hid w) as [|x next]; [reflexivity|].
    cbn [get_hid_from]. destruct (Z.gtb_spec num 0); [lia | reflexivity]. }
  split; [exact G|].
  unfold rawhid_close, rawhid_recv, rawhid_send. rewrite G.
  repeat split; reflexivity.
Qed.

Lemma negative_index_is_first_witness :
  get_hid teensy_opened (-1) = get_hid teensy_opened 0.
Proof. exact (proj1 (negative_index_is_first (-1) teensy_opened eq_refl)). Defined.

(** X6: [rawhid_close] never renumbers. The list keeps its length, and
    every node stays where it was with its [open], [iface], [ep_in] and
    [ep_out] fields; the only change there can be is the handle of the
    node the index addresses, which becomes NULL. *)
Theorem close_keeps_positions (num : Z) (w : world) :
  length (first_hid (rawhid_close num w)) = length (first_hid w) /\
  next_handle (rawhid_close num w) = next_handle w /\
  forall k e,
    nth_error (first_hid w) k = Some e ->
    exists e',
      nth_error (first_hid (rawhid_close num w)) k = Some e' /\
      open e' = open e /\ iface e' = iface e /\
      ep_in e' = ep_in e /\ ep_out e' = ep_out e /\
      (handle e' = handle e \/
       (handle e' = None /\ get_hid w num = Some (k, e))).
Proof.
  unfold rawhid_close.
  destruct (get_hid w num) as [[pos hid]|] eqn:G;
    [|split; [reflexivity | split; [reflexivity|]]; intros k e He; exists e; tauto].
  destruct (open hid =? 0);
    [split; [reflexivity | split; [reflexivity|]]; intros k e He; exists e; tauto|].
  destruct (get_hid_from_nth _ _ _ _ _ G) as [_ Hn]. rewrite Nat.sub_0_r in Hn.
  unfold hid_close. destruct (handle hid) as [h|] eqn:Hh; cbn [first_hid next_handle].
  - split; [apply store_length | split; [reflexivity|]].
    intros k e He. rewrite store_nth_error, He.
    destruct (Nat.eqb_spec k pos) as [-> | Nk].
    + rewrite Hn in He. injection He as <-.
      eexists. split; [reflexivity|]. cbn. tauto.
    + exists e. tauto.
  - split; [apply store_length | split; [reflexivity|]].
    intros k e He. rewrite store_nth_error, He.
    destruct (Nat.eqb_spec k pos) as [-> | Nk].
    + rewrite Hn in He. injection He as <-. exists hid. tauto.
    + exists e. tauto.
Qed.

Lemma teardown_after_store (x : hid_t) (l : list hid_t) :
  teardown x = [] ->
  forall pos hid,
    nth_error l pos = Some hid ->
    Permutation (teardown hid ++ flat_map teardown (store l pos x))
                (flat_map teardown l).
Proof.
  intros Hx. induction l as [|a next IH]; intros [|pos] hid Hn; cbn in Hn;
    try discriminate.
  - injection Hn as ->. cbn [store flat_map]. rewrite Hx. apply Permutation_refl.
  - cbn [store flat_map].
    eapply Permutation_trans; [apply Permutation_app_swap_app|].
    apply Permutation_app_head. now apply IH.
Qed.

(** X7: tearing the list down after an individual close asks the stack
    for exactly the releases and closes that tearing it down alone would
    have: [rawhid_close] followed by [free_all_hid] releases and closes
    every connection once, none twice. *)
Theorem close_then_free_all (num : Z) (w : world) :
  first_hid (free_all_hid (rawhid_close num w)) = [] /\
  exists cs,
    calls (free_all_hid (rawhid_close num w)) = calls w ++ cs /\
    Permutation cs (flat_map teardown (first_hid w)).
Proof.
  rewrite free_all_hid_world. cbn [first_hid calls]. split; [reflexivity|].
  unfold rawhid_close.
  destruct (get_hid w num) as [[pos hid]|] eqn:G;
    [|eexists; split; [reflexivity | apply Permutation_refl]].
  destruct (open hid =? 0);
    [eexists; split; [reflexivity | apply Permutation_refl]|].
  destruct (get_hid_from_nth _ _ _ _ _ G) as [_ Hn]. rewrite Nat.sub_0_r in Hn.
  unfold hid_close. destruct (handle hid) as [h|] eqn:Hh; cbn [first_hid calls].
  - eexists. split; [rewrite <- app_assoc; reflexivity|].
    replace [Call_release_interface h (iface hid); Call_close h]
      with (teardown hid) by (unfold teardown; now rewrite Hh).
    now apply teardown_after_store.
  - eexists. split; [rewrite <- app_assoc; reflexivity|]. cbn [app].
    replace (flat_map teardown (store (first_hid w) pos hid))
      with (teardown hid ++ flat_map teardown (store (first_hid w) pos hid))
      by (unfold teardown at 1; now rewrite Hh).
    apply teardown_after_store; [|exact Hn]. unfold teardown. now rewrite Hh.
Qed.

(** ** Transport, continued *)

(** X8: [rawhid_recv] leaves the list and the handle counter alone and
    makes at most one call, an interrupt transfer with the requested
    length, the timeout converted to [unsigned int], and an endpoint
    address between 0 and 255 that has the IN bit set. *)
Theorem recv_effects (num len timeout : Z) (answer : Z * Z) (w : world) :
  first_hid (snd (rawhid_recv num len timeout answer w)) = first_hid w /\
  next_handle (snd (rawhid_recv num len timeout answer w)) = next_handle w /\
  (calls (snd (rawhid_recv num len timeout answer w)) = calls w \/
   exists h ep,
     calls (snd (rawhid_recv num len timeout answer w))
     = calls w ++ [Call_interrupt_transfer h ep len (timeout mod 2 ^ 32)] /\
     0 <= ep <= 255 /\ Z.testbit ep 7 = true).
Proof.
  unfold rawhid_recv. destruct (get_hid w num) as [[pos hid]|]; [|cbn; tauto].
  destruct (open hid =? 0); [cbn; tauto|]. destruct answer as [r transferred].
  assert (B : Z.testbit (to_uchar (Z.lor (ep_in hid) LIBUSB_ENDPOINT_IN)) 7 = true).
  { unfold to_uchar. rewrite Z.mod_pow2_bits_low by lia.
    rewrite Z.lor_spec. change (Z.testbit LIBUSB_ENDPOINT_IN 7) with true.
    apply orb_true_r. }
  assert (R : 0 <= to_uchar (Z.lor (ep_in hid) LIBUSB_ENDPOINT_IN) <= 255).
  { unfold to_uchar.
    pose proof (Z.mod_pos_bound (Z.lor (ep_in hid) LIBUSB_ENDPOINT_IN) (2 ^ 8) eq_refl)
      as M. lia. }
  destruct (r =? 0); [|destruct (r =? LIBUSB_ERROR_TIMEOUT)];
    cbn [snd log first_hid next_handle calls];
    (split; [reflexivity | split; [reflexivity|]]); right;
    eexists _, _; (split; [reflexivity | split; [exact R | exact B]]).
Qed.

(** X9: [rawhid_send] on an index past the end of the list, or on an
    entry whose [open] field is 0, returns -1 and makes no transfer. *)
Theorem send_unaddressable (num len timeout : Z) (ia : Z * Z) (ca : Z)
    (w : world) :
  Z.of_nat (length (first_hid w)) <= num \/
  (0 <= num /\ exists hid,
     nth_error (first_hid w) (Z.to_nat num) = Some hid /\ open hid = 0) ->
  rawhid_send num len timeout ia ca w = (-1, None).
Proof.
  intros [H | (H0 & hid & Hn & Ho)]; unfold rawhid_send.
  - unfold get_hid. now rewrite get_hid_past_end.
  - rewrite get_hid_nth_error by exact H0. rewrite Hn. cbn [option_map].
    now rewrite Ho.
Qed.

Lemma send_unaddressable_witness :
  rawhid_send 1 64 100 (0, 64) 64 teensy_opened = (-1, None).
Proof.
  refine (send_unaddressable 1 64 100 (0, 64) 64 teensy_opened _).
  left. vm_compute. discriminate.
Defined.

(** X10: on an open entry [rawhid_send] makes exactly one transfer. With
    an OUT endpoint it is an interrupt transfer on that endpoint (as
    [unsigned char]) with the length as given, and the result is the byte
    count when the transfer returns 0 or more, else -1. Without one it is
    the control transfer SET_REPORT (request type 0x21, request 0x09,
    value 0x0200) with the entry's interface and the length both as
    [uint16_t], and the result is what the transfer returns if that is 0
    or more, else -1. The timeout is passed as [unsigned int]. *)
Theorem send_selects_transfer (num len timeout r transferred ca : Z)
    (w : world) (hid : hid_t) :
  0 <= num -> nth_error (first_hid w) (Z.to_nat num) = Some hid ->
  open hid <> 0 ->
  rawhid_send num len timeout (r, transferred) ca w
  = if ep_out hid =? 0
    then (if 0 <=? ca then ca else -1,
          Some (Send_control (handle hid) 0x21 0x09 0x200
                  (iface hid mod 2 ^ 16) (len mod 2 ^ 16) (timeout mod 2 ^ 32)))
    else (if 0 <=? r then transferred else -1,
          Some (Send_interrupt (handle hid) (ep_out hid mod 2 ^ 8) len
                  (timeout mod 2 ^ 32))).
Proof.
  intros H0 Hn Ho. unfold rawhid_send.
  rewrite get_hid_nth_error by exact H0. rewrite Hn. cbn [option_map].
  rewrite (proj2 (Z.eqb_neq _ _) Ho). rewrite !Z.geb_leb.
  destruct (ep_out hid =? 0); reflexivity.
Qed.

Lemma send_selects_transfer_witness :
  rawhid_send 0 64 100 (0, 64) 0 teensy_opened
  = (64, Some (Send_interrupt (Some 0%nat) 4 64 100)).
Proof.
  refine (send_selects_transfer 0 64 100 0 64 0 teensy_opened
            (mk_hid (Some 0%nat) 1 0 3 4) _ _ _).
  - discriminate.
  - reflexivity.
  - discriminate.
Defined.

(** X11: an entry closed with [rawhid_close] keeps [open] set, so
    [rawhid_send] on its index still makes a transfer, on the NULL
    handle, with the other arguments as for an open entry. *)
Theorem send_after_close_uses_null_handle (num len timeout : Z) (ia : Z * Z)
    (ca : Z) (w : world) (hid : hid_t) :
  0 <= num -> nth_error (first_hid w) (Z.to_nat num) = Some hid ->
  open hid <> 0 ->
  snd (rawhid_send num len timeout ia ca (rawhid_close num w))
  = Some (if ep_out hid =? 0
          then Send_control None 0x21 0x09 0x200
                 (iface hid mod 2 ^ 16) (len mod 2 ^ 16) (timeout mod 2 ^ 32)
          else Send_interrupt None (ep_out hid mod 2 ^ 8) len
                 (timeout mod 2 ^ 32)).
Proof.
  intros H0 Hn Ho.
  assert (G : get_hid w num = Some (Z.to_nat num, hid))
    by (rewrite get_hid_nth_error by exact H0; now rewrite Hn).
  assert (Hc : exists hid',
             nth_error (first_hid (rawhid_close num w)) (Z.to_nat num) = Some hid' /\
             handle hid' = None /\ open hid' = open hid /\
             iface hid' = iface hid /\ ep_out hid' = ep_out hid).
  { unfold rawhid_close. rewrite G. rewrite (proj2 (Z.eqb_neq _ _) Ho).
    unfold hid_close. destruct (handle hid) as [h|] eqn:Hh; cbn [first_hid].
    - rewrite store_nth_error, Nat.eqb_refl, Hn. eexists. split; [reflexivity|].
      cbn. tauto.
    - rewrite store_nth_error, Nat.eqb_refl, Hn. exists hid. tauto. }
  destruct Hc as (hid' & Hn' & Hh' & Ho' & Hi' & He').
  unfold rawhid_send. rewrite get_hid_nth_error by exact H0.
  rewrite Hn'. cbn [option_map]. rewrite Ho', He', Hh', Hi'.
  rewrite (proj2 (Z.eqb_neq _ _) Ho). destruct ia as [r transferred].
  destruct (ep_out hid =? 0); reflexivity.
Qed.

Lemma send_after_close_uses_null_handle_witness :
  snd (rawhid_send 0 64 100 (0, 64) 0 (rawhid_close 0 teensy_opened))
  = Some (Send_interrupt None 4 64 100).
Proof.
  refine (send_after_close_uses_null_handle 0 64 100 (0, 64) 0 teensy_opened
            (mk_hid (Some 0%nat) 1 0 3 4) _ _ _).
  - discriminate.
  - reflexivity.
  - discriminate.
Defined.

(** ** [rawhid_scan] *)

Lemma is_counted_filters (vid pid : Z) (desc : scanned_descriptor) :
  is_counted vid pid (Some desc)
  = negb ((vid >? 0) && negb (idVendor (scanned_ids desc) =? vid))
    && negb ((pid >? 0) && negb (idProduct (scanned_ids desc) =? pid))
    && (bNumConfigurations desc >? 0).
Proof.
  unfold is_counted. rewrite !Z.gtb_ltb, !negb_andb, !negb_involutive.
  rewrite <- !Z.leb_antisym. reflexivity.
Qed.

Lemma scan_loop_counts (vid pid : Z) (devs : list (option scanned_descriptor)) :
  forall c,
    scan_loop vid pid devs c
    = c + Z.of_nat (length (filter (is_counted vid pid) devs)).
Proof.
  induction devs as [|[desc|] rest IH]; intros c; cbn [scan_loop filter].
  - cbn. lia.
  - rewrite is_counted_filters.
    destruct ((vid >? 0) && negb (idVendor (scanned_ids desc) =? vid));
      cbn [negb andb]; [apply IH|].
    destruct ((pid >? 0) && negb (idProduct (scanned_ids desc) =? pid));
      cbn [negb andb]; [apply IH|].
    destruct (bNumConfigurations desc >? 0); [|apply IH].
    rewrite IH. cbn [length]. lia.
  - cbn [is_counted]. apply IH.
Qed.

(** X12: [rawhid_scan] returns the number of devices whose descriptor can
    be read, whose vendor and product ids equal the filters that are
    greater than 0, and that report at least one configuration; any
    filter value of 0 or less, not only -1, means any. *)
Theorem scan_counts_matching (vid pid : Z)
    (devs : list (option scanned_descriptor)) :
  rawhid_scan vid pid (Some devs)
  = Z.of_nat (length (filter (is_counted vid pid) devs)).
Proof. unfold rawhid_scan. now rewrite scan_loop_counts. Qed.

(** X13: whatever the filters, [rawhid_scan] returns at least 0, at most
    what it returns with both filters set to any, and that is at most the
    number of devices listed. *)
Theorem scan_bounds (vid pid : Z) (devs : list (option scanned_descriptor)) :
  0 <= rawhid_scan vid pid (Some devs)
    <= rawhid_scan (-1) (-1) (Some devs) /\
  rawhid_scan (-1) (-1) (Some devs) <= Z.of_nat (length devs).
Proof.
  unfold rawhid_scan. rewrite !scan_loop_counts.
  assert (A : (length (filter (is_counted vid pid) devs)
               <= length (filter (is_counted (-1) (-1)) devs))%nat).
  { induction devs as [|[desc|] rest IH]; cbn [filter]; [lia | | exact IH].
    destruct (is_counted vid pid (Some desc)) eqn:E1;
      destruct (is_counted (-1) (-1) (Some desc)) eqn:E2; cbn [length]; try lia.
    unfold is_counted in E1, E2. cbn [Z.leb Z.compare orb andb] in E2.
    rewrite E2, andb_false_r in E1. discriminate. }
  pose proof (filter_length_le (is_counted (-1) (-1)) devs). lia.
Qed.

(** X14: with a vendor filter greater than 0 that no listed device
    carries, [rawhid_scan] returns 0; so it does when the device list
    cannot be obtained. *)
Theorem scan_without_match (vid pid : Z)
    (devs : list (option scanned_descriptor)) :
  0 < vid ->
  (forall desc, In (Some desc) devs -> idVendor (scanned_ids desc) <> vid) ->
  rawhid_scan vid pid (Some devs) = 0 /\ rawhid_scan vid pid None = 0.
Proof.
  intros Hv Hno. split; [|reflexivity].
  unfold rawhid_scan. rewrite scan_loop_counts.
  replace (filter (is_counted vid pid) devs) with (@nil (option scanned_descriptor));
    [reflexivity|].
  symmetry. induction devs as [|[desc|] rest IH]; cbn [filter]; [reflexivity | |].
  - unfold is_counted at 1.
    destruct (Z.leb_spec vid 0); [lia|].
    rewrite (proj2 (Z.eqb_neq _ _) (Hno desc (or_introl eq_refl))).
    cbn [orb andb]. apply IH. intros d Hd. apply Hno. now right.
  - cbn [is_counted]. apply IH. intros d Hd. apply Hno. now right.
Qed.

Lemma scan_without_match_witness :
  rawhid_scan 0x16C0 (-1)
    (Some [Some (mk_scanned (mk_device_descriptor 0x046D 0xC31C) 1); None]) = 0 /\
  rawhid_scan 0x16C0 (-1) None = 0.
Proof.
  refine (scan_without_match 0x16C0 (-1)
            [Some (mk_scanned (mk_device_descriptor 0x046D 0xC31C) 1); None] _ _).
  - reflexivity.
  - intros desc [H | [H | []]]; [injection H as <-; discriminate | discriminate].
Defined.

(** ** Discovery, continued *)

Lemma land_7F_range (z : Z) : 0 <= Z.land z 0x7F <= 127.
Proof.
  assert (E : Z.land z 0x7F = z mod 128).
  { change 0x7F with (Z.ones 7). rewrite Z.land_ones by lia. reflexivity. }
  rewrite E. pose proof (Z.mod_pos_bound z 128 eq_refl). lia.
Qed.

Lemma endpoint_loop_from (eps : list libusb_endpoint_descriptor) :
  forall i o,
    endpoint_loop eps i o
    = (if i =? 0 then first_in eps else i, if o =? 0 then first_out eps else o).
Proof.
  induction eps as [|ep rest IH]; intros i o; cbn [endpoint_loop].
  - unfold first_in, first_out. cbn [find].
    destruct (Z.eqb_spec i 0), (Z.eqb_spec o 0); congruence.
  - rewrite !IH. unfold first_in, first_out. cbn [find]. unfold is_in.
    destruct (negb (Z.land (bEndpointAddress ep) LIBUSB_ENDPOINT_IN =? 0));
      cbn [negb andb].
    + destruct (Z.eqb_spec i 0) as [-> | Ni].
      * cbn [Z.eqb].
        destruct (Z.land (bEndpointAddress ep) 127 =? 0); reflexivity.
      * rewrite (proj2 (Z.eqb_neq _ _) Ni). reflexivity.
    + destruct (Z.eqb_spec o 0) as [-> | No].
      * cbn [Z.eqb]. destruct (bEndpointAddress ep =? 0); reflexivity.
      * rewrite (proj2 (Z.eqb_neq _ _) No). reflexivity.
Qed.

Lemma first_in_range (eps : list libusb_endpoint_descriptor) :
  0 <= first_in eps <= 127.
Proof.
  unfold first_in. destruct (find _ eps); [apply land_7F_range | lia].
Qed.

Lemma first_out_clear (eps : list libusb_endpoint_descriptor) :
  Z.land (first_out eps) LIBUSB_ENDPOINT_IN = 0.
Proof.
  unfold first_out.
  destruct (find _ eps) as [ep|] eqn:F; [|reflexivity].
  apply find_some in F. destruct F as [_ F].
  apply andb_true_iff in F. destruct F as [F _]. unfold is_in in F.
  rewrite negb_involutive in F. now apply Z.eqb_eq.
Qed.

(** X15: the endpoint loop keeps, as [ep_in], the number of the first IN
    endpoint whose number is not 0 (an IN endpoint numbered 0 is passed
    over), and as [ep_out] the address of the first other endpoint whose
    address is not 0; [ep_in] ends between 0 and 127, and [ep_out] with
    the direction bit clear. *)
Theorem endpoint_loop_selects (eps : list libusb_endpoint_descriptor) :
  endpoint_loop eps 0 0 = (first_in eps, first_out eps) /\
  0 <= fst (endpoint_loop eps 0 0) <= 127 /\
  Z.land (snd (endpoint_loop eps 0 0)) LIBUSB_ENDPOINT_IN = 0.
Proof.
  rewrite endpoint_loop_from. cbn [Z.eqb fst snd].
  split; [reflexivity|]. split; [apply first_in_range | apply first_out_clear].
Qed.

Lemma app_eq_app_cons (A : Type) (d1 d2 pre post : list A) (c : A) :
  d1 ++ d2 = pre ++ c :: post ->
  (exists post1, d1 = pre ++ c :: post1 /\ post = post1 ++ d2) \/
  (exists pre2, d2 = pre2 ++ c :: post /\ pre = d1 ++ pre2).
Proof.
  revert pre. induction d1 as [|a d1 IH]; intros pre E; cbn [app] in E.
  - right. exists pre. now split.
  - destruct pre as [|b pre]; cbn [app] in E; injection E as <- E.
    + left. exists d1. now split.
    + destruct (IH pre E) as [(post1 & -> & ->) | (pre2 & -> & ->)].
      * left. exists post1. now split.
      * right. exists pre2. now split.
Qed.

Lemma paired_nil : paired [] [].
Proof.
  split; [|split].
  - intros [|? ?] post h j r E; discriminate E.
  - intros [|? ?] post h j E; discriminate E.
  - intros h e n t [].
Qed.

Lemma paired_app (d1 d2 : list usb_call) (n1 n2 : list hid_t) :
  paired d1 n1 -> paired d2 n2 -> paired (d1 ++ d2) (n1 ++ n2).
Proof.
  intros (A1 & B1 & C1) (A2 & B2 & C2). split; [|split].
  - intros pre post h j r E Hr. rewrite map_app.
    destruct (app_eq_app_cons _ _ _ _ _ _ E) as [(post1 & E1 & ->) | (pre2 & E2 & ->)].
    + destruct (A1 _ _ _ _ _ E1 Hr) as [O | R];
        [left | right]; apply in_or_app; now left.
    + destruct (A2 _ _ _ _ _ E2 Hr) as [O | R];
        [left; apply in_or_app; now right | now right].
  - intros pre post h j E.
    destruct (app_eq_app_cons _ _ _ _ _ _ E) as [(post1 & E1 & ->) | (pre2 & E2 & ->)].
    + destruct (B1 _ _ _ _ E1) as ((r & Hr & Hc) & Hcl). split.
      * exists r. now split.
      * apply in_or_app. now left.
    + destruct (B2 _ _ _ _ E2) as ((r & Hr & Hc) & Hcl). split.
      * exists r. split; [exact Hr|]. apply in_or_app. now right.
      * exact Hcl.
  - intros h e n t Hin. apply in_app_or in Hin.
    destruct Hin as [Hin | Hin]; [now apply (C1 h e n t) | now apply (C2 h e n t)].
Qed.

Ltac in_cases H :=
  cbn [In] in H;
  repeat match type of H with
         | _ \/ _ => destruct H as [H | H]
         end;
  try contradiction; try discriminate H.

(** The calls of a candidate that is dropped before a claim succeeds. *)
Lemma paired_unclaimed (delta : list usb_call) :
  (forall h j r, In (Call_claim_interface h j r) delta -> r < 0) ->
  (forall h j, ~ In (Call_release_interface h j) delta) ->
  (forall h e n t, ~ In (Call_interrupt_transfer h e n t) delta) ->
  paired delta [].
Proof.
  intros A B C. split; [|split].
  - intros pre post h j r E Hr.
    assert (Hin : In (Call_claim_interface h j r) delta)
      by (rewrite E; apply in_elt).
    specialize (A h j r Hin). lia.
  - intros pre post h j E. exfalso. apply (B h j). rewrite E. apply in_elt.
  - exact C.
Qed.

(** The calls of a candidate dropped after its claim succeeded. *)
Lemma paired_dropped (pre0 : list usb_call) (h : libusb_device_handle)
    (j r : Z) :
  0 <= r -> (forall c, In c pre0 -> before_claim c) ->
  paired (pre0 ++ [Call_claim_interface h j r; Call_get_report h j;
                   Call_release_interface h j; Call_close h]) [].
Proof.
  intros Hr Hpre. split; [|split].
  - intros pre post h' j' r' E _. right.
    destruct (app_eq_app_cons _ _ _ _ _ _ E) as [(post1 & E1 & ->) | (pre2 & E2 & ->)].
    + exfalso. apply (Hpre (Call_claim_interface h' j' r')).
      rewrite E1. apply in_elt.
    + destruct pre2 as [|c1 [|c2 [|c3 [|c4 [|c5 pre2]]]]]; cbn [app] in E2;
        try discriminate E2.
      injection E2 as <- <- <- <-. cbn. tauto.
  - intros pre post h' j' E.
    destruct (app_eq_app_cons _ _ _ _ _ _ E) as [(post1 & E1 & ->) | (pre2 & E2 & ->)].
    + exfalso. apply (Hpre (Call_release_interface h' j')).
      rewrite E1. apply in_elt.
    + destruct pre2 as [|c1 [|c2 [|c3 [|c4 [|c5 pre2]]]]]; cbn [app] in E2;
        try discriminate E2.
      injection E2 as <- <- <- <- <-. split.
      * exists r. split; [exact Hr|]. apply in_or_app. right. now left.
      * now left.
  - intros h' e n t Hin. apply in_app_or in Hin. destruct Hin as [Hin | Hin].
    + apply (Hpre _ Hin).
    + in_cases Hin.
Qed.

(** The calls of a candidate that is registered. *)
Lemma paired_kept (pre0 : list usb_call) (h : libusb_device_handle)
    (j r : Z) (new : list hid_t) :
  (forall c, In c pre0 -> before_claim c) ->
  In (Some h) (map handle new) ->
  paired (pre0 ++ [Call_claim_interface h j r; Call_get_report h j]) new.
Proof.
  intros Hpre Hown. split; [|split].
  - intros pre post h' j' r' E _. left.
    destruct (app_eq_app_cons _ _ _ _ _ _ E) as [(post1 & E1 & ->) | (pre2 & E2 & ->)].
    + exfalso. apply (Hpre (Call_claim_interface h' j' r')).
      rewrite E1. apply in_elt.
    + destruct pre2 as [|c1 [|c2 [|c3 pre2]]]; cbn [app] in E2;
        try discriminate E2.
      injection E2 as <- <- <- <-. exact Hown.
  - intros pre post h' j' E. exfalso.
    destruct (app_eq_app_cons _ _ _ _ _ _ E) as [(post1 & E1 & ->) | (pre2 & E2 & ->)].
    + apply (Hpre (Call_release_interface h' j')). rewrite E1. apply in_elt.
    + destruct pre2 as [|c1 [|c2 [|c3 pre2]]]; cbn [app] in E2; discriminate E2.
  - intros h' e n t Hin. apply in_app_or in Hin. destruct Hin as [Hin | Hin].
    + apply (Hpre _ Hin).
    + in_cases Hin.
Qed.

Lemma effect_no_entry (l l' : locals) (w w' : world) (delta : list usb_call) :
  calls w' = calls w ++ delta -> first_hid w' = first_hid w ->
  count l' = count l -> (next_handle w <= next_handle w')%nat ->
  paired delta [] ->
  pass_effect l w (l', w').
Proof.
  intros Hc Hf Hn Hh Hp. exists delta, []. cbn [fst snd length held_handles flat_map].
  rewrite app_nil_r.
  refine (conj Hc (conj Hf (conj _ (conj Hp (conj _ (conj _ (conj _ Hh))))))).
  - cbn. lia.
  - constructor.
  - constructor.
  - constructor.
Qed.

Lemma effect_one_entry (l l' : locals) (w w' : world) (delta : list usb_call)
    (e : hid_t) :
  calls w' = calls w ++ delta -> first_hid w' = first_hid w ++ [e] ->
  count l' = count l + 1 -> next_handle w' = S (next_handle w) ->
  handle e = Some (next_handle w) -> fresh_entry e ->
  paired delta [e] ->
  pass_effect l w (l', w').
Proof.
  intros Hc Hf Hn Hh He Hfresh Hp. exists delta, [e].
  unfold held_handles. cbn [fst snd length flat_map]. rewrite He. cbn [app].
  refine (conj Hc (conj Hf (conj _ (conj Hp (conj _ (conj _ (conj _ _))))))).
  - cbn. lia.
  - constructor; [exact Hfresh | constructor].
  - repeat constructor.
  - constructor; [lia | constructor].
  - lia.
Qed.

Lemma pass_effect_refl (l : locals) (w : world) : pass_effect l w (l, w).
Proof.
  apply effect_no_entry with (delta := []); try reflexivity;
    [now rewrite app_nil_r | apply paired_nil].
Qed.

Ltac unclaimed :=
  let Hc := fresh "Hc" in
  apply paired_unclaimed;
  [ intros ? ? ? Hc | intros ? ? Hc | intros ? ? ? ? Hc ]; in_cases Hc.

(** One alternate setting: what [altsetting_body] adds to the calls and to
    the list. *)
Lemma altsetting_body_effect (usage_page usage : Z) (i : nat) (j : Z)
    (a : altsetting) (l : locals) (w : world) :
  pass_effect l w (altsetting_body usage_page usage i j a l w).
Proof.
  unfold altsetting_body.
  destruct (negb (bInterfaceClass (iface_desc a) =? LIBUSB_CLASS_HID));
    [apply pass_effect_refl|].
  destruct (negb (bInterfaceSubClass (iface_desc a) =? 0)); [apply pass_effect_refl|].
  destruct (negb (bInterfaceProtocol (iface_desc a) =? 0)); [apply pass_effect_refl|].
  pose proof (first_in_range (endpoint (iface_desc a))) as Rin.
  pose proof (first_out_clear (endpoint (iface_desc a))) as Rout.
  rewrite endpoint_loop_from. cbn [Z.eqb].
  destruct (Z.eqb_spec (first_in (endpoint (iface_desc a))) 0) as [|Hfirst];
    [apply pass_effect_refl|].
  destruct (open_r (answers a) <? 0).
  { apply effect_no_entry with (delta := [Call_open i None]); try reflexivity.
    unclaimed. }
  set (h := next_handle w).
  set (O := Call_open i (Some h)).
  set (D := Call_detach_kernel_driver h j (detach_kernel_driver_r (answers a))).
  set (w0 := mk_world (first_hid w) (S h) (calls w ++ [O])).
  assert (Rest :
    forall (w1 : world) (pre : list usb_call),
      first_hid w1 = first_hid w -> next_handle w1 = S h ->
      calls w1 = calls w ++ pre ->
      (forall c, In c pre -> c = O \/ c = D) ->
      pass_effect l w
        (let w2 := log w1 [Call_claim_interface h j (claim_interface_r (answers a))] in
         if claim_interface_r (answers a) <? 0 then (l, log w2 [Call_close h]) else
         let w3 := log w2 [Call_get_report h j] in
         match report_descriptor (answers a) with
         | None => (l, log w3 [Call_release_interface h j; Call_close h])
         | Some bytes =>
             let (pup, pu) :=
               parse_descriptor bytes (parsed_usage_page l) (parsed_usage l) in
             let l0 := mk_locals (count l) pup pu in
             if (pup =? 0) || (pu =? 0)
                || ((usage_page >? 0) && negb (pup =? usage_page))
                || ((usage >? 0) && negb (pu =? usage))
             then (l0, log w3 [Call_release_interface h j; Call_close h]) else
             if negb (malloc_ok (answers a))
             then (l0, log w3 [Call_release_interface h j; Call_close h]) else
             (mk_locals (count l0 + 1) pup pu,
              add_hid (mk_hid (Some h) 1 j (first_in (endpoint (iface_desc a)))
                         (first_out (endpoint (iface_desc a)))) w3)
         end)).
  { intros w1 pre Hf1 Hn1 Hc1 Hpre. cbv zeta.
    assert (Pre : forall c, In c pre -> before_claim c)
      by (intros c Hm; destruct (Hpre c Hm) as [-> | ->]; exact I).
    assert (Dropped : forall l0, count l0 = count l ->
              0 <= claim_interface_r (answers a) ->
              pass_effect l w
                (l0, log (log (log w1 [Call_claim_interface h j
                                         (claim_interface_r (answers a))])
                              [Call_get_report h j])
                         [Call_release_interface h j; Call_close h])).
    { intros l0 Hl0 Hpos.
      apply effect_no_entry
        with (delta := pre ++ [Call_claim_interface h j (claim_interface_r (answers a));
                               Call_get_report h j; Call_release_interface h j;
                               Call_close h]).
      - cbn [log calls]. rewrite Hc1, <- !app_assoc. reflexivity.
      - cbn [log first_hid]. exact Hf1.
      - exact Hl0.
      - cbn [log next_handle]. rewrite Hn1. lia.
      - now apply paired_dropped. }
    destruct (Z.ltb_spec (claim_interface_r (answers a)) 0) as [Hneg | Hpos].
    { apply effect_no_entry
        with (delta := pre ++ [Call_claim_interface h j (claim_interface_r (answers a));
                               Call_close h]).
      - cbn [log calls]. rewrite Hc1, <- !app_assoc. reflexivity.
      - cbn [log first_hid]. exact Hf1.
      - reflexivity.
      - cbn [log next_handle]. rewrite Hn1. lia.
      - apply paired_unclaimed.
        + intros h0 j0 r0 Hm. apply in_app_or in Hm. destruct Hm as [Hm | Hm].
          * destruct (Hpre _ Hm); discriminate.
          * in_cases Hm. injection Hm as _ _ <-. exact Hneg.
        + intros h0 j0 Hm. apply in_app_or in Hm. destruct Hm as [Hm | Hm].
          * destruct (Hpre _ Hm); discriminate.
          * in_cases Hm.
        + intros h0 e0 n0 t0 Hm. apply in_app_or in Hm.
          destruct Hm as [Hm | Hm].
          * destruct (Hpre _ Hm); discriminate.
          * in_cases Hm. }
    destruct (report_descriptor (answers a)) as [bytes|];
      [|now apply Dropped].
    destruct (parse_descriptor bytes _ _) as [pup pu].
    destruct (_ || _); [now apply Dropped|].
    destruct (negb (malloc_ok (answers a))); [now apply Dropped|].
    rewrite add_hid_world.
    apply effect_one_entry
      with (delta := pre ++ [Call_claim_interface h j (claim_interface_r (answers a));
                             Call_get_report h j])
           (e := mk_hid (Some h) 1 j (first_in (endpoint (iface_desc a)))
                   (first_out (endpoint (iface_desc a)))).
    - cbn [log calls]. rewrite Hc1, <- !app_assoc. reflexivity.
    - cbn [log first_hid]. now rewrite Hf1.
    - reflexivity.
    - cbn [log next_handle]. exact Hn1.
    - reflexivity.
    - unfold fresh_entry. cbn [handle open ep_in ep_out].
      repeat split; try lia; try assumption. now exists h.
    - apply paired_kept; [exact Pre | cbn; tauto]. }
  destruct (negb (kernel_driver_active_r (answers a) =? 0)); cbn [andb].
  - destruct (detach_kernel_driver_r (answers a) <? 0).
    { apply effect_no_entry with (delta := [O; D; Call_close h]).
      - cbn [log calls w0]. rewrite <- !app_assoc. reflexivity.
      - reflexivity.
      - reflexivity.
      - cbn. lia.
      - unclaimed. }
    apply (Rest (log w0 [D]) [O; D]); try reflexivity.
    + cbn [log calls w0]. rewrite <- !app_assoc. reflexivity.
    + intros c Hc. in_cases Hc; auto.
  - apply (Rest w0 [O]); try reflexivity.
    intros c Hc. in_cases Hc; auto.
Qed.

Lemma StronglySorted_app (l1 l2 : list nat) :
  StronglySorted Nat.lt l1 -> StronglySorted Nat.lt l2 ->
  (forall x y, In x l1 -> In y l2 -> (x < y)%nat) ->
  StronglySorted Nat.lt (l1 ++ l2).
Proof.
  intros S1 S2 H. induction S1 as [|a l1 S1 IH Ha]; cbn [app]; [exact S2|].
  constructor.
  - apply IH. intros x y Hx Hy. apply H; [now right | exact Hy].
  - apply Forall_app. split; [exact Ha|].
    apply Forall_forall. intros y Hy. apply H; [now left | exact Hy].
Qed.

Lemma pass_effect_trans (l0 l1 : locals) (w0 w1 : world) (lw : locals * world) :
  pass_effect l0 w0 (l1, w1) -> pass_effect l1 w1 lw -> pass_effect l0 w0 lw.
Proof.
  intros (d1 & n1 & Hc1 & Hf1 & Hn1 & Hp1 & He1 & Hs1 & Hb1 & Hh1)
         (d2 & n2 & Hc2 & Hf2 & Hn2 & Hp2 & He2 & Hs2 & Hb2 & Hh2).
  cbn [fst snd] in *. exists (d1 ++ d2), (n1 ++ n2).
  assert (HH : held_handles (n1 ++ n2) = held_handles n1 ++ held_handles n2)
    by (unfold held_handles; apply flat_map_app).
  rewrite Forall_forall in Hb1, Hb2.
  refine (conj _ (conj _ (conj _ (conj _ (conj _ (conj _ (conj _ _))))))).
  - rewrite Hc2, Hc1. now rewrite app_assoc.
  - rewrite Hf2, Hf1. now rewrite app_assoc.
  - rewrite Hn2, Hn1, length_app, Nat2Z.inj_add. lia.
  - now apply paired_app.
  - apply Forall_app. now split.
  - rewrite HH. apply StronglySorted_app; try assumption.
    intros x y Hx Hy. specialize (Hb1 x Hx). specialize (Hb2 y Hy). lia.
  - rewrite HH. apply Forall_forall. intros x Hx. apply in_app_or in Hx.
    destruct Hx as [Hx | Hx]; [specialize (Hb1 x Hx) | specialize (Hb2 x Hx)]; lia.
  - lia.
Qed.

(** Whatever every alternate setting preserves, the loops preserve. *)
Section Lift.
Variables (max vid pid usage_page usage : Z).
Variable P : locals * world -> Prop.
Hypothesis P_body :
  forall i j a l w, P (l, w) -> P (altsetting_body usage_page usage i j a l w).

Lemma altsetting_loop_lift (i : nat) (j : Z) (alts : list altsetting) :
  forall l w, P (l, w) -> P (altsetting_loop usage_page usage i j alts l w).
Proof.
  induction alts as [|a rest IH]; intros l w H; cbn [altsetting_loop]; [exact H|].
  pose proof (P_body i j a l w H) as H'.
  destruct (altsetting_body usage_page usage i j a l w) as [l' w']. now apply IH.
Qed.

Lemma interface_loop_lift (i : nat) (ifaces : list libusb_interface) :
  forall j l w, P (l, w) -> P (interface_loop max usage_page usage i j ifaces l w).
Proof.
  induction ifaces as [|alts rest IH]; intros j l w H; cbn [interface_loop];
    [exact H|].
  destruct (count l <? max); [|exact H].
  pose proof (altsetting_loop_lift i j alts l w H) as H'.
  destruct (altsetting_loop usage_page usage i j alts l w) as [l' w']. now apply IH.
Qed.

Lemma device_loop_lift (devs : list libusb_device) :
  forall i l w, P (l, w) -> P (device_loop max vid pid usage_page usage i devs l w).
Proof.
  induction devs as [|dev rest IH]; intros i l w H; cbn [device_loop]; [exact H|].
  destruct (count l <? max); [|exact H].
  assert (H' : P (device_body max vid pid usage_page usage i dev l w)).
  { unfold device_body. destruct (device_descriptor dev); [|exact H].
    destruct (_ && _); [exact H|]. destruct (_ && _); [exact H|].
    destruct (config_descriptor dev); [|exact H].
    now apply interface_loop_lift. }
  destruct (device_body max vid pid usage_page usage i dev l w) as [l' w'].
  now apply IH.
Qed.
End Lift.

(** What a call of [rawhid_open] does after the teardown, in terms of
    [pass_effect]. *)
Lemma rawhid_open_effect (max vid pid usage_page usage : Z)
    (devs : option (list libusb_device)) (w : world) :
  exists delta,
    calls (snd (rawhid_open max vid pid usage_page usage devs w))
    = calls w ++ flat_map teardown (first_hid w) ++ delta /\
    fst (rawhid_open max vid pid usage_page usage devs w)
    = Z.of_nat (length (first_hid (snd (rawhid_open max vid pid usage_page usage
                                            devs w)))) /\
    paired delta (first_hid (snd (rawhid_open max vid pid usage_page usage devs w))) /\
    Forall fresh_entry
      (first_hid (snd (rawhid_open max vid pid usage_page usage devs w))) /\
    StronglySorted Nat.lt
      (held_handles (first_hid (snd (rawhid_open max vid pid usage_page usage
                                       devs w)))) /\
    Forall (fun h => (next_handle w <= h)%nat)
      (held_handles (first_hid (snd (rawhid_open max vid pid usage_page usage
                                       devs w)))).
Proof.
  unfold rawhid_open.
  set (w0 := match first_hid w with [] => w | _ :: _ => free_all_hid w end).
  assert (E0 : w0 = mk_world [] (next_handle w)
                      (calls w ++ flat_map teardown (first_hid w))).
  { unfold w0. destruct (first_hid w) eqn:E.
    - cbn. rewrite app_nil_r. destruct w; cbn in *; now subst.
    - rewrite free_all_hid_world, E. reflexivity. }
  assert (Fin : forall lw, pass_effect (mk_locals 0 0 0) w0 lw ->
            exists delta,
              calls (snd lw) = calls w ++ flat_map teardown (first_hid w) ++ delta /\
              count (fst lw) = Z.of_nat (length (first_hid (snd lw))) /\
              paired delta (first_hid (snd lw)) /\
              Forall fresh_entry (first_hid (snd lw)) /\
              StronglySorted Nat.lt (held_handles (first_hid (snd lw))) /\
              Forall (fun h => (next_handle w <= h)%nat)
                     (held_handles (first_hid (snd lw)))).
  { intros lw (delta & new & Hc & Hf & Hn & Hp & He & Hs & Hb & Hh).
    rewrite E0 in Hc, Hf, Hb. cbn [calls first_hid next_handle app] in Hc, Hf, Hb.
    exists delta. rewrite Hf.
    refine (conj _ (conj _ (conj Hp (conj He (conj Hs _))))).
    - rewrite Hc. now rewrite app_assoc.
    - rewrite Hn. cbn. lia.
    - eapply Forall_impl; [|exact Hb]. cbv beta. intros; lia. }
  destruct (max <? 1);
    [exact (Fin (mk_locals 0 0 0, w0) (pass_effect_refl _ _))|].
  destruct devs as [devs|];
    [|exact (Fin (mk_locals 0 0 0, w0) (pass_effect_refl _ _))].
  pose proof (device_loop_lift max vid pid usage_page usage
                (pass_effect (mk_locals 0 0 0) w0)) as L.
  specialize (L (fun i j a l w1 H =>
                   pass_effect_trans _ _ _ _ _ H
                     (altsetting_body_effect usage_page usage i j a l w1))).
  specialize (L devs 0%nat _ _ (pass_effect_refl _ _)).
  destruct (device_loop _ _ _ _ _ _ _ _ _) as [l' w'].
  exact (Fin (l', w') L).
Qed.

(** X16: in the calls of a pass, in the order they are made: after every
    successful claim of an interface that no registered entry owns comes
    a release of that interface on the same connection; before every
    release comes a successful claim of that interface on that
    connection, and after it the close of the connection; and the pass
    makes no interrupt transfer. *)
Theorem open_pairs_claims (max vid pid usage_page usage : Z)
    (devs : option (list libusb_device)) (w : world) :
  let r := rawhid_open max vid pid usage_page usage devs w in
  exists pass,
    calls (snd r) = calls w ++ flat_map teardown (first_hid w) ++ pass /\
    (forall before after h j c,
       pass = before ++ Call_claim_interface h j c :: after -> 0 <= c ->
       In (Some h) (map handle (first_hid (snd r))) \/
       In (Call_release_interface h j) after) /\
    (forall before after h j,
       pass = before ++ Call_release_interface h j :: after ->
       (exists c, 0 <= c /\ In (Call_claim_interface h j c) before) /\
       In (Call_close h) after) /\
    (forall h e n t, ~ In (Call_interrupt_transfer h e n t) pass).
Proof.
  intros r. subst r.
  destruct (rawhid_open_effect max vid pid usage_page usage devs w)
    as (delta & Hc & _ & Hp & _).
  exists delta. split; [exact Hc | exact Hp].
Qed.

(** X17: every entry [rawhid_open] leaves is open, holds a connection,
    has an IN endpoint number between 1 and 127, and an OUT endpoint
    address with the direction bit clear (0 when the interface has no OUT
    endpoint). *)
Theorem open_entries_fresh (max vid pid usage_page usage : Z)
    (devs : option (list libusb_device)) (w : world) (e : hid_t) :
  In e (first_hid (snd (rawhid_open max vid pid usage_page usage devs w))) ->
  (exists h, handle e = Some h) /\ open e = 1 /\
  1 <= ep_in e <= 127 /\ Z.land (ep_out e) LIBUSB_ENDPOINT_IN = 0.
Proof.
  destruct (rawhid_open_effect max vid pid usage_page usage devs w)
    as (delta & _ & _ & _ & He & _).
  rewrite Forall_forall in He. apply He.
Qed.

Lemma open_entries_fresh_witness :
  (exists h, handle (mk_hid (Some 0%nat) 1 0 3 4) = Some h) /\
  open (mk_hid (Some 0%nat) 1 0 3 4) = 1 /\
  1 <= ep_in (mk_hid (Some 0%nat) 1 0 3 4) <= 127 /\
  Z.land (ep_out (mk_hid (Some 0%nat) 1 0 3 4)) LIBUSB_ENDPOINT_IN = 0.
Proof.
  refine (open_entries_fresh 1 (-1) (-1) (-1) (-1) (Some teensy) empty_world
            (mk_hid (Some 0%nat) 1 0 3 4) _).
  vm_compute. left. reflexivity.
Defined.

(** X18: the list [rawhid_open] leaves is in discovery order: the
    connections of its entries are in the order in which the stack handed
    them out, and none of them was handed out before the call. *)
Theorem open_entries_in_order (max vid pid usage_page usage : Z)
    (devs : option (list libusb_device)) (w : world) :
  StronglySorted Nat.lt
    (held_handles (first_hid (snd (rawhid_open max vid pid usage_page usage
                                     devs w)))) /\
  Forall (fun h => (next_handle w <= h)%nat)
    (held_handles (first_hid (snd (rawhid_open max vid pid usage_page usage
                                     devs w)))).
Proof.
  destruct (rawhid_open_effect max vid pid usage_page usage devs w)
    as (delta & _ & _ & _ & _ & Hs & Hb).
  now split.
Qed.

(** X19: right after [rawhid_open] has returned [n], every index [num]
    from 0 to [n - 1] is usable: [rawhid_recv] makes its interrupt
    transfer on the connection that the entry at position [num] holds, on
    that entry's IN endpoint number with the IN bit set (so between 0x81
    and 0xFF), with the length as given and the timeout converted to
    [unsigned int], and returns the byte count on success, 0 on a timeout
    and -1 on any other failure. Every index from [n] up gives -1 without
    a call. *)
Theorem recv_after_open (max vid pid usage_page usage : Z)
    (devs : option (list libusb_device)) (w : world)
    (num len timeout r transferred : Z) :
  let opened := rawhid_open max vid pid usage_page usage devs w in
  (0 <= num < fst opened ->
   exists e h,
     nth_error (first_hid (snd opened)) (Z.to_nat num) = Some e /\
     handle e = Some h /\ 1 <= ep_in e <= 127 /\
     rawhid_recv num len timeout (r, transferred) (snd opened)
     = (if r =? 0 then transferred
        else if r =? LIBUSB_ERROR_TIMEOUT then 0 else -1,
        log (snd opened)
          [Call_interrupt_transfer (Some h) (ep_in e + 0x80) len
             (timeout mod 2 ^ 32)])) /\
  (fst opened <= num ->
   rawhid_recv num len timeout (r, transferred) (snd opened) = (-1, snd opened)).
Proof.
  intros opened. subst opened.
  destruct (rawhid_open_effect max vid pid usage_page usage devs w)
    as (delta & _ & Hn & _ & He & _).
  set (w' := snd (rawhid_open max vid pid usage_page usage devs w)) in *.
  rewrite Hn. split.
  - intros [H0 H1].
    destruct (nth_error (first_hid w') (Z.to_nat num)) as [e|] eqn:E;
      [|apply nth_error_None in E; lia].
    rewrite Forall_forall in He.
    destruct (He e (nth_error_In _ _ E)) as ((h & Hh) & Ho & Hin & _).
    exists e, h. split; [reflexivity|]. split; [exact Hh|]. split; [exact Hin|].
    unfold rawhid_recv. rewrite get_hid_nth_error by exact H0.
    rewrite E. cbn [option_map]. rewrite Ho, Hh. cbn [Z.eqb].
    replace (to_uchar (Z.lor (ep_in e) LIBUSB_ENDPOINT_IN)) with (ep_in e + 128).
    + unfold to_uint. destruct (r =? 0); [reflexivity|].
      destruct (r =? LIBUSB_ERROR_TIMEOUT); reflexivity.
    + change LIBUSB_ENDPOINT_IN with (Z.shiftl 1 7).
      rewrite lor_shiftl_add by (change (2 ^ 7) with 128; lia).
      unfold to_uchar. change (2 ^ 7) with 128. change (2 ^ 8) with 256.
      rewrite Z.mod_small by lia. lia.
  - intros H. now apply rawhid_recv_no_entry.
Qed.

(** ** The bound on the count, in general *)

Section Bound_general.
Variables (max vid pid usage_page usage : Z) (n : nat).

Lemma altsetting_loop_grows (i : nat) (j : Z) (alts : list altsetting) :
  forall l w,
    count l <= count (fst (altsetting_loop usage_page usage i j alts l w))
            <= count l + Z.of_nat (length alts).
Proof.
  induction alts as [|a rest IH]; intros l w; cbn [altsetting_loop length].
  - cbn. lia.
  - pose proof (tried_count _ _ _ _ _ _
                  (altsetting_body_tried usage_page usage i j a l w)) as T.
    destruct (altsetting_body usage_page usage i j a l w) as [l' w'].
    cbn [fst] in T. specialize (IH l' w'). lia.
Qed.

Lemma interface_loop_grows (i : nat) (ifaces : list libusb_interface) :
  forall j l w,
    Forall (fun alts : libusb_interface => (length alts <= n)%nat) ifaces ->
    count l <= max - 1 + Z.of_nat n ->
    count l <= count (fst (interface_loop max usage_page usage i j ifaces l w))
            <= max - 1 + Z.of_nat n.
Proof.
  induction ifaces as [|alts rest IH]; intros j l w HF Hl;
    cbn [interface_loop]; [cbn; lia|].
  inversion HF as [|? ? H1 Hrest]; subst.
  destruct (Z.ltb_spec (count l) max); [|cbn; lia].
  pose proof (altsetting_loop_grows i j alts l w) as B.
  destruct (altsetting_loop usage_page usage i j alts l w) as [l' w'].
  cbn [fst] in B.
  assert (G : count l' <= max - 1 + Z.of_nat n) by lia.
  specialize (IH (j + 1) l' w' Hrest G). lia.
Qed.

Lemma device_loop_grows (devs : list libusb_device) :
  forall i l w,
    Forall (altsettings_at_most n) devs ->
    count l <= max - 1 + Z.of_nat n ->
    count l <= count (fst (device_loop max vid pid usage_page usage i devs l w))
            <= max - 1 + Z.of_nat n.
Proof.
  induction devs as [|dev rest IH]; intros i l w HF Hl;
    cbn [device_loop]; [cbn; lia|].
  inversion HF as [|? ? H1 Hrest]; subst.
  destruct (count l <? max); [|cbn; lia].
  assert (B : count l
              <= count (fst (device_body max vid pid usage_page usage i dev l w))
              <= max - 1 + Z.of_nat n).
  { unfold device_body, altsettings_at_most in *.
    destruct (device_descriptor dev); [|cbn; lia].
    destruct (_ && _); [cbn; lia|]. destruct (_ && _); [cbn; lia|].
    destruct (config_descriptor dev); [|cbn; lia].
    now apply interface_loop_grows. }
  destruct (device_body max vid pid usage_page usage i dev l w) as [l' w'].
  cbn [fst] in B.
  assert (G : count l' <= max - 1 + Z.of_nat n) by lia.
  specialize (IH (S i) l' w' Hrest G). lia.
Qed.
End Bound_general.

(** X20: with [max >= 1], [rawhid_open] returns at least 0 and at most
    [max - 1 + n], where [n] is the largest number of alternate settings
    of an interface: the count can pass [max] only inside the last
    interface tried. With one alternate setting per interface the bound
    is [max]. *)
Theorem open_count_bound (max vid pid usage_page usage : Z) (n : nat)
    (devs : list libusb_device) (w : world) :
  1 <= max -> Forall (altsettings_at_most n) devs ->
  0 <= fst (rawhid_open max vid pid usage_page usage (Some devs) w)
    <= max - 1 + Z.of_nat n.
Proof.
  intros Hmax HF. unfold rawhid_open.
  destruct (Z.ltb_spec max 1); [lia|].
  match goal with
  | |- context [device_loop ?a ?b ?c ?d ?e ?i ?ds ?l ?w0] =>
      pose proof (device_loop_grows a b c d e n ds i l w0 HF) as B;
      destruct (device_loop a b c d e i ds l w0) as [l' w']
  end.
  cbn [fst count] in *. lia.
Qed.

Lemma open_count_bound_witness :
  0 <= fst (rawhid_open 1 (-1) (-1) (-1) (-1) (Some two_altsettings) empty_world)
    <= 1 - 1 + Z.of_nat 2.
Proof.
  refine (open_count_bound 1 (-1) (-1) (-1) (-1) 2 two_altsettings empty_world _ _).
  - discriminate.
  - repeat constructor.
Defined.

(** ** Devices and interfaces that are passed over *)

Lemma altsetting_body_not_candidate (usage_page usage : Z) (i : nat) (j : Z)
    (a : altsetting) (l : locals) (w : world) :
  is_candidate a = false ->
  altsetting_body usage_page usage i j a l w = (l, w).
Proof.
  unfold is_candidate, altsetting_body. intros H.
  destruct (bInterfaceClass (iface_desc a) =? LIBUSB_CLASS_HID); [|reflexivity].
  destruct (bInterfaceSubClass (iface_desc a) =? 0); [|reflexivity].
  destruct (bInterfaceProtocol (iface_desc a) =? 0); [|reflexivity].
  cbn [andb negb] in *. rewrite endpoint_loop_from. cbn [Z.eqb].
  apply negb_false_iff in H. now rewrite H.
Qed.

Lemma interface_loop_no_candidate (max usage_page usage : Z) (i : nat)
    (ifaces : list libusb_interface) :
  forall j l w,
    existsb (existsb is_candidate) ifaces = false ->
    interface_loop max usage_page usage i j ifaces l w = (l, w).
Proof.
  induction ifaces as [|alts rest IH]; intros j l w H; cbn [interface_loop];
    [reflexivity|].
  cbn [existsb] in H. apply orb_false_iff in H. destruct H as [Ha Hr].
  destruct (count l <? max); [|reflexivity].
  assert (E : altsetting_loop usage_page usage i j alts l w = (l, w)).
  { clear IH Hr. induction alts as [|a alts IHa]; [reflexivity|].
    cbn [existsb] in Ha. apply orb_false_iff in Ha. destruct Ha as [H1 H2].
    cbn [altsetting_loop]. rewrite altsetting_body_not_candidate by exact H1.
    now apply IHa. }
  rewrite E. now apply IH.
Qed.

(** X21: [rawhid_open] asks nothing of the stack for a device that fails
    the vendor or product filter, whose descriptors cannot be read, or
    that has no alternate setting of HID class with subclass 0, protocol
    0 (so no boot keyboard or mouse) and a usable IN endpoint: when every
    listed device is like that, the call returns 0 and only tears down
    what it found. *)
Theorem open_skips_unexamined (max vid pid usage_page usage : Z)
    (devs : list libusb_device) (w : world) :
  Forall (fun dev => is_examined vid pid dev = false) devs ->
  rawhid_open max vid pid usage_page usage (Some devs) w
  = (0, mk_world [] (next_handle w)
          (calls w ++ flat_map teardown (first_hid w))).
Proof.
  intros HF. unfold rawhid_open.
  set (w0 := match first_hid w with [] => w | _ :: _ => free_all_hid w end).
  assert (E0 : w0 = mk_world [] (next_handle w)
                      (calls w ++ flat_map teardown (first_hid w))).
  { unfold w0. destruct (first_hid w) eqn:E.
    - cbn. rewrite app_nil_r. destruct w; cbn in *; now subst.
    - rewrite free_all_hid_world, E. reflexivity. }
  destruct (max <? 1); [now rewrite E0|].
  assert (L : forall i l w1,
            device_loop max vid pid usage_page usage i devs l w1 = (l, w1)).
  { induction HF as [|dev rest Hd _ IH]; intros i l w1; cbn [device_loop];
      [reflexivity|].
    destruct (count l <? max); [|reflexivity].
    assert (B : device_body max vid pid usage_page usage i dev l w1 = (l, w1)).
    { unfold device_body, is_examined in *.
      destruct (device_descriptor dev) as [desc|]; [|reflexivity].
      destruct ((vid >? 0) && negb (idVendor desc =? vid)); [reflexivity|].
      destruct ((pid >? 0) && negb (idProduct desc =? pid)); [reflexivity|].
      destruct (config_descriptor dev) as [ifaces|]; [|reflexivity].
      cbn [negb andb] in Hd. now apply interface_loop_no_candidate. }
    rewrite B. apply IH. }
  rewrite L. now rewrite E0.
Qed.

Lemma open_skips_unexamined_witness :
  rawhid_open 4 0x046D (-1) (-1) (-1) (Some teensy) empty_world
  = (0, mk_world [] 0%nat []).
Proof.
  refine (open_skips_unexamined 4 0x046D (-1) (-1) (-1) teensy empty_world _).
  repeat constructor.
Defined.

(** ** The scan of a descriptor and the values it starts from *)

Lemma latest_usage_no_usage_items (items : list (Z * Z)) :
  Forall (fun tv => fst tv <> 4 /\ fst tv <> 8) items ->
  forall pup pu, latest_usage items pup pu = (pup, pu).
Proof.
  induction 1 as [|[t v] rest [H4 H8] _ IH]; intros pup pu; cbn [latest_usage];
    [reflexivity|].
  cbn [fst] in *.
  rewrite (proj2 (Z.eqb_neq _ _) H4), (proj2 (Z.eqb_neq _ _) H8).
  destruct (negb (pup =? 0) && negb (pu =? 0)); [reflexivity | apply IH].
Qed.

(** X22: a descriptor in which no decoded item has tag 4 or tag 8 (an
    empty one, for instance) leaves [parsed_usage_page] and
    [parsed_usage] as the scan found them, so the values compared for
    this candidate are those of an earlier one. *)
Theorem scan_without_usage_items (d : list byte) (pup pu : Z) :
  Forall (fun tv => fst tv <> 4 /\ fst tv <> 8) (items_of d) ->
  parse_descriptor d pup pu = (pup, pu).
Proof.
  intros H. rewrite parse_descriptor_latest.
  now apply latest_usage_no_usage_items.
Qed.

Lemma scan_without_usage_items_witness :
  parse_descriptor (bytes_of [0xA1; 0x01; 0xC0; 0xC0]) 0xFFAB 0x0200
  = (0xFFAB, 0x0200).
Proof.
  refine (scan_without_usage_items (bytes_of [0xA1; 0x01; 0xC0; 0xC0])
            0xFFAB 0x0200 _).
  vm_compute. repeat constructor; discriminate.
Defined.

(** X23: a scan that starts with both values non-zero looks at one item
    only, unless that item is a tag-4 or tag-8 item of value 0: it
    replaces the usage page if the item has tag 4, the usage if it has
    tag 8, and stops, whatever items follow. *)
Theorem scan_stops_after_first_item (d : list byte) (pup pu t v : Z)
    (rest : list (Z * Z)) :
  pup <> 0 -> pu <> 0 ->
  items_of d = (t, v) :: rest ->
  v <> 0 \/ (t <> 4 /\ t <> 8) ->
  parse_descriptor d pup pu
  = (if t =? 4 then v else pup, if t =? 8 then v else pu).
Proof.
  intros Hp Hu Hi Hv. rewrite parse_descriptor_latest, Hi. cbn [latest_usage].
  assert (A : (if t =? 4 then v else pup) <> 0)
    by (destruct (Z.eqb_spec t 4); [lia | exact Hp]).
  assert (B : (if t =? 8 then v else pu) <> 0)
    by (destruct (Z.eqb_spec t 8); [lia | exact Hu]).
  rewrite (proj2 (Z.eqb_neq _ _) A), (proj2 (Z.eqb_neq _ _) B). reflexivity.
Qed.

Lemma scan_stops_after_first_item_witness :
  parse_descriptor (bytes_of [0x06; 0xAB; 0xFF; 0x0A; 0x00; 0x03; 0xC0]) 0xFFAB 0x0200
  = (0xFFAB, 0x0200).
Proof.
  refine (scan_stops_after_first_item
            (bytes_of [0x06; 0xAB; 0xFF; 0x0A; 0x00; 0x03; 0xC0])
            0xFFAB 0x0200 4 0xFFAB [(8, 0x0300)] _ _ _ _).
  - discriminate.
  - discriminate.
  - reflexivity.
  - left. discriminate.
Defined.

(** ** [rawhid_close] on one entry *)

(** X24: [rawhid_close] on an entry that is open and holds a connection
    releases the entry's interface on that connection, then closes the
    connection, and makes no other call; on an index past the end of the
    list it does nothing. *)
Theorem close_releases_entry (num : Z) (w : world) :
  (forall hid h,
     0 <= num -> nth_error (first_hid w) (Z.to_nat num) = Some hid ->
     open hid <> 0 -> handle hid = Some h ->
     calls (rawhid_close num w)
     = calls w ++ [Call_release_interface h (iface hid); Call_close h]) /\
  (Z.of_nat (length (first_hid w)) <= num -> rawhid_close num w = w).
Proof.
  split.
  - intros hid h H0 Hn Ho Hh. unfold rawhid_close.
    rewrite get_hid_nth_error by exact H0. rewrite Hn. cbn [option_map].
    rewrite (proj2 (Z.eqb_neq _ _) Ho). unfold hid_close. now rewrite Hh.
  - intros H. unfold rawhid_close, get_hid. now rewrite get_hid_past_end.
Qed.

(** ** The list and the candidates of a pass *)





